(** * ripper2csv: a shallow embedding of [src/main.py]

    The program reads a directory of tagged text dumps, and either writes a
    starter [config.txt] (when no usable config exists) or an [output.csv]
    table (when one does).

    Modelling choices, all taken from the Python source:
    - a Python [str] is a sequence of Unicode code points: [list N];
    - a text file is the list of raw lines that [readline] returns in turn
      (line terminator included), the empty string standing for end of file;
      these are decoded lines: what [open] and the utf-16 decoder raise
      before any line exists (a missing file, a file without byte-order
      mark) is outside the model, as is what writing a file or a console
      message may raise, and every statement below is about files that were
      opened and decoded;
    - a [dict] keeps insertion order: an association list with in-place
      update;
    - a [set] is a [gset]; the order in which Python iterates over a set is
      unspecified, so it is a parameter ([set_iter]) of everything that
      iterates;
    - [str.lower] needs the Unicode case tables, which are not part of the
      repository: it is a parameter ([lower]) of [write_config];
    - exceptions are values of [exn], threaded through a small error monad;
    - [print] calls are diagnostics only and are left out. *)

From stdpp Require Import gmap list sorting.
From Stdlib Require Import NArith Lia.
From Stdlib Require Strings.String Strings.Ascii.
Import String.StringSyntax.
Local Open Scope string_scope.

Local Open Scope N_scope.
Local Open Scope list_scope.

(** ** Python strings *)

Abbreviation str := (list N).

(** A literal of ASCII characters as a Python string. *)
Definition u (s : String.string) : str :=
  map Ascii.N_of_ascii (String.list_ascii_of_string s).

Definition TAB : N := 9.
Definition NL : N := 10.
Definition SPACE : N := 32.
Definition COLON : N := 58.
Definition COMMA : N := 44.

(** [bool(s)] for a string: the empty string is falsy. *)
Definition truthy {A} (l : list A) : bool :=
  match l with [] => false | _ :: _ => true end.

(** [str.isspace] on one code point (CPython's [_PyUnicode_IsWhitespace]). *)
Definition is_space (c : N) : bool :=
  ((9 <=? c) && (c <=? 13)) || ((28 <=? c) && (c <=? 32))
  || (c =? 133) || (c =? 160) || (c =? 5760)
  || ((8192 <=? c) && (c <=? 8202))
  || (c =? 8232) || (c =? 8233) || (c =? 8239) || (c =? 8287)
  || (c =? 12288).

Fixpoint lstrip (s : str) : str :=
  match s with
  | [] => []
  | c :: s' => if is_space c then lstrip s' else s
  end.

Definition rstrip (s : str) : str := rev (lstrip (rev s)).

(** [s.strip()] *)
Definition strip (s : str) : str := rstrip (lstrip s).

(** [s.split(c)] for a one-character separator [c]: every occurrence of
    [c] separates, so the result has one more element than [s] has
    occurrences of [c]. *)
Fixpoint split_on (c : N) (s : str) : list str :=
  match s with
  | [] => [[]]
  | x :: s' =>
      if x =? c then [] :: split_on c s'
      else match split_on c s' with
           | h :: t => (x :: h) :: t
           | [] => [[x]]
           end
  end.

(** [sep.join(l)] *)
Fixpoint join (sep : str) (l : list str) : str :=
  match l with
  | [] => []
  | [x] => x
  | x :: l' => x ++ sep ++ join sep l'
  end.

Fixpoint starts_with (p s : str) : bool :=
  match p, s with
  | [], _ => true
  | _ :: _, [] => false
  | a :: p', b :: s' => (a =? b) && starts_with p' s'
  end.

(** [sub in s]: substring test. *)
Fixpoint contains (sub s : str) : bool :=
  starts_with sub s ||
  match s with
  | [] => false
  | _ :: s' => contains sub s'
  end.

(** Python's [<=] on strings: lexicographic on code points. *)
Fixpoint str_le (a b : str) : bool :=
  match a, b with
  | [], _ => true
  | _ :: _, [] => false
  | x :: a', y :: b' => (x <? y) || ((x =? y) && str_le a' b')
  end.

(** ** Exceptions *)

Inductive exn : Type :=
| AssertionError
| IndexError
| UnboundLocalError
| OutOfFuel.

Inductive result (A : Type) : Type :=
| Ok (a : A)
| Raise (e : exn).
Arguments Ok {A} a.
Arguments Raise {A} e.

Definition rbind {A B} (r : result A) (k : A -> result B) : result B :=
  match r with
  | Ok a => k a
  | Raise e => Raise e
  end.

Notation "x <-! r ;; k" := (rbind r (fun x => k))
  (at level 100, r at next level, right associativity).

(** [l[i]], which raises [IndexError] out of range. *)
Definition index {A} (l : list A) (i : nat) : result A :=
  match l !! i with
  | Some a => Ok a
  | None => Raise IndexError
  end.

(** [l[-1]] *)
Definition index_last {A} (l : list A) : result A :=
  match last l with
  | Some a => Ok a
  | None => Raise IndexError
  end.

(** ** Dictionaries (insertion ordered) *)

Abbreviation dict V := (list (str * V)).

Fixpoint dict_get {V} (k : str) (d : dict V) : option V :=
  match d with
  | [] => None
  | (k', v) :: d' => if decide (k = k') then Some v else dict_get k d'
  end.

(** [d[k] = v]: an existing key keeps its position. *)
Fixpoint dict_set {V} (k : str) (v : V) (d : dict V) : dict V :=
  match d with
  | [] => [(k, v)]
  | (k', v') :: d' =>
      if decide (k = k') then (k, v) :: d' else (k', v') :: dict_set k v d'
  end.

Definition dict_keys {V} (d : dict V) : list str := map fst d.

(** ** Data model *)

(** The value that [handle_parts] stores for a tag: [config.get(part, part)]
    is the category's value set when the tag is itself a key of the config,
    and the tag otherwise. *)
Inductive part_value : Type :=
| PTag (tag : str)
| PTerms (terms : gset str).

Record Word : Type := mkWord {
  verse_id : str;
  form : str;
  transliterated_form : str;
  fts : option (list str);
  parts : option (dict part_value);
  lemma : option str;
  transliterated_lemma : option str;
  translation : option str
}.

(** [ConfigType = Optional[Dict[str, Set[str]]]] *)
Abbreviation Config := (dict (gset str)).
Abbreviation ConfigType := (option Config).

Definition skip_chars : list str :=
  [u "["; u "]"; [226; 8212; 166]].

Definition DEFAULT_PARTS : dict (list str) :=
  [ (u "verse", [u "Particle"; u "Verb"; u "Noun"; u "Suffix"; u "Pronoun";
                 u "Adjective"; u "Paragraph"; u "Noun"]);
    (u "pos", [u "noun"; u "verb"; u "particle"; u "adjective"]);
    (u "number", [u "singular"; u "plural"]);
    (u "gender", [u "masculine"; u "feminine"]);
    (u "tense", [u "perfect"; u "imperfect"]);
    (u "person", [u "first"; u "second"; u "third"]);
    (u "binyan", [u "qal"; u "piel"; u "hifil"; u "nifal"; u "pual";
                  u "hitpael"; u "hofal"; u "passiveqal"; u "polel";
                  u "hitpolel"]) ].

(** ** ConfigStore: [read_config] *)

(** One iteration of the loop over [file.readlines()]; [None] is the
    [ValueError] raised for a line that does not split in two. *)
Definition read_config_line (ret : Config) (line : str) : option Config :=
  match split_on COLON line with
  | [p0; p1] =>
      let terms := split_on COMMA p1 in
      let title := strip p0 in
      Some (dict_set title (list_to_set terms) ret)
  | _ => None
  end.

Fixpoint read_config_lines (ret : Config) (lines : list str) : option Config :=
  match lines with
  | [] => Some ret
  | line :: lines' =>
      match read_config_line ret line with
      | Some ret' => read_config_lines ret' lines'
      | None => None
      end
  end.

(** [configfile] is [None] when [config.txt] does not exist, and the result
    of [readlines] otherwise.  The [except Exception] clause turns the
    [ValueError] into the result [None]. *)
Definition read_config (configfile : option (list str)) : ConfigType :=
  match configfile with
  | None => None
  | Some lines => read_config_lines [] lines
  end.

(** ** CategoryResolver: [handle_parts] *)

Definition config_get_default (config : Config) (part : str) : part_value :=
  match dict_get part config with
  | Some terms => PTerms terms
  | None => PTag part
  end.

(** The dict comprehension [{part: config.get(part, part) for part in l}]. *)
Fixpoint parts_comprehension (config : Config) (l : list str)
    (acc : dict part_value) : dict part_value :=
  match l with
  | [] => acc
  | part :: l' =>
      parts_comprehension config l'
        (dict_set part (config_get_default config part) acc)
  end.

Definition handle_parts (tagstring : str) (config : ConfigType)
    : option (dict part_value) :=
  match config with
  | None => None
  | Some c => Some (parts_comprehension c (split_on SPACE tagstring) [])
  end.

(** ** VerseParser *)

Definition parse_word (verse : str) (fields : list str) (config : ConfigType)
    : result Word :=
  p0 <-! index fields 0;;
  p1 <-! index fields 1;;
  p2 <-! index fields 2;;
  p3 <-! index fields 3;;
  tags <-! (if decide (length fields = 6%nat)
            then p4 <-! index fields 4;; Ok (Some (split_on SPACE p4))
            else Ok None);;
  resolved <-! (if decide (length fields = 6%nat)
                then p4 <-! index fields 4;; Ok (handle_parts p4 config)
                else Ok None);;
  plast <-! index_last fields;;
  Ok {| verse_id := verse;
        form := p0;
        transliterated_form := p1;
        lemma := Some p2;
        transliterated_lemma := Some p3;
        fts := tags;
        parts := resolved;
        translation := Some plast |}.

Definition parse_suffix (verse : str) (fields : list str) (config : ConfigType)
    : result Word :=
  p0 <-! index fields 0;;
  p1 <-! index fields 1;;
  p2 <-! index fields 2;;
  Ok {| verse_id := verse;
        form := p0;
        transliterated_form := p1;
        fts := Some (split_on SPACE p2);
        parts := handle_parts p2 config;
        lemma := None;
        transliterated_lemma := None;
        translation := None |}.

(** A text file being read: the raw lines still ahead. *)
Abbreviation reader := (list str).

(** [file.readline()]: the next raw line, or [''] at end of file. *)
Definition readline (f : reader) : str * reader :=
  match f with
  | [] => ([], [])
  | l :: f' => (l, f')
  end.

(** [has_another_line]: peeks, the position is restored. *)
Definition has_another_line (f : reader) : bool :=
  truthy (fst (readline f)).

Definition is_skipped (line : str) : bool :=
  existsb (fun skip_char => contains skip_char line) skip_chars.

(** The [while True] loop of [parse_verse]: it ends at a blank line or at
    the end of the file, so it is structural on the lines ahead. *)
Fixpoint parse_verse_body (verse : str) (config : ConfigType) (f : reader)
    : result (list Word * reader) :=
  match f with
  | [] => Ok ([], [])
  | raw :: f' =>
      let line := strip raw in
      if is_skipped line then parse_verse_body verse config f'
      else if negb (truthy line) then Ok ([], f')
      else
        let fields := split_on TAB line in
        if decide (length fields = 3%nat) then
          w <-! parse_suffix verse fields config;;
          r <-! parse_verse_body verse config f';;
          Ok (w :: fst r, snd r)
        else if decide (length fields = 5%nat \/ length fields = 6%nat) then
          w <-! parse_word verse fields config;;
          r <-! parse_verse_body verse config f';;
          Ok (w :: fst r, snd r)
        else parse_verse_body verse config f'
  end.

Definition parse_verse (config : ConfigType) (f : reader)
    : result (list Word * reader) :=
  let (raw, f') := readline f in
  let verse := strip raw in
  if contains [TAB] verse then Raise AssertionError
  else parse_verse_body verse config f'.

(** The [while True] loop of [parse_file], with fuel: one unit per verse. *)
Fixpoint parse_file_loop (fuel : nat) (config : ConfigType) (f : reader)
    : result (list Word) :=
  match fuel with
  | O => Raise OutOfFuel
  | S fuel' =>
      r <-! parse_verse config f;;
      if has_another_line (snd r)
      then rest <-! parse_file_loop fuel' config (snd r);; Ok (fst r ++ rest)
      else Ok (fst r)
  end.

(** Every verse after the first consumes at least one line, so one more
    unit of fuel than there are lines is enough (see [parse_file_total]). *)
Definition parse_file (f : reader) (config : ConfigType) : result (list Word) :=
  parse_file_loop (S (length f)) config f.

(** [sorted(get_files(dir))] is the list of the [rip_*.txt] files in name
    order; [files] below is that list, each file given by its lines. *)
Fixpoint parse_files (config : ConfigType) (files : list reader)
    : result (list Word) :=
  match files with
  | [] => Ok []
  | f :: files' =>
      ws <-! parse_file f config;;
      rest <-! parse_files config files';;
      Ok (ws ++ rest)
  end.

(** ** Sorting and removal on lists *)

(** [sorted(l, key=key)]: Python's sort is stable and compares keys, which
    any stable sort reproduces; this one is insertion sort. *)
Fixpoint insert_by (key : str -> str) (x : str) (l : list str) : list str :=
  match l with
  | [] => [x]
  | y :: l' =>
      if str_le (key x) (key y) then x :: l else y :: insert_by key x l'
  end.

Definition sorted (key : str -> str) (l : list str) : list str :=
  foldr (insert_by key) [] l.

(** [l.remove(x)]: removes the first occurrence. *)
Fixpoint remove_first (x : str) (l : list str) : list str :=
  match l with
  | [] => []
  | y :: l' => if decide (x = y) then l' else y :: remove_first x l'
  end.

(** [if feature in met_parts: met_parts.remove(feature)] *)
Definition remove_if_in (met_parts : list str) (feature : str) : list str :=
  if decide (feature ∈ met_parts) then remove_first feature met_parts
  else met_parts.

(** [file.readlines()] on the text of a file: lines keep their newline. *)
Fixpoint readlines (text : str) : list str :=
  match text with
  | [] => []
  | c :: text' =>
      if c =? NL then [c] :: readlines text'
      else match readlines text' with
           | [] => [[c]]
           | l :: ls => (c :: l) :: ls
           end
  end.

(** ** The writers and the main program *)

Inductive output : Type :=
| ConfigWritten (text : str)
| CsvWritten (fieldnames : list str) (rows : list (dict (option str))).

Section Writers.

(** The order in which Python iterates over a set. *)
Variable set_iter : gset str -> list str.
(** [str.lower]. *)
Variable lower : str -> str.

(** *** ConfigStore: [write_config] *)

(** [for word in words: if word.fts: parts.update(word.fts)] *)
Definition observed_parts (words : list Word) : gset str :=
  foldl (fun acc word =>
           match fts word with
           | Some (t :: ts) => acc ∪ list_to_set (t :: ts)
           | _ => acc
           end) ∅ words.

(** One round of the loop over [DEFAULT_PARTS.items()]: the state is the
    text written so far and [met_parts]. *)
Definition write_config_category (st : str * list str)
    (entry : str * list str) : str * list str :=
  (fst st ++ fst entry ++ u ": " ++ join (u ", ") (snd entry) ++ [NL],
   foldl remove_if_in (snd st) (snd entry)).

(** The unclaimed tags left in [met_parts] after the loop. *)
Definition other_parts (words : list Word) : list str :=
  snd (foldl write_config_category
         ([], sorted lower (set_iter (observed_parts words)))
         DEFAULT_PARTS).

(** The text written to [config.txt]. *)
Definition write_config (words : list Word) : str :=
  let st := foldl write_config_category
              ([], sorted lower (set_iter (observed_parts words)))
              DEFAULT_PARTS in
  if truthy (snd st)
  then fst st ++ u "other: " ++ join (u ", ") (snd st)
  else fst st.

(** *** TableWriter: [write_csv] *)

Definition csv_fts (word : Word) : option str :=
  match fts word with
  | Some (t :: ts) => Some (u "[" ++ join (u ", ") (t :: ts) ++ u "]")
  | _ => None
  end.

(** [config_terms.intersection(set(word.parts)) if word.parts else None];
    an empty or absent [word.parts] is falsy. *)
Definition met_terms (config_terms : gset str) (word : Word)
    : option (gset str) :=
  match parts word with
  | Some (p :: ps) => Some (config_terms ∩ list_to_set (dict_keys (p :: ps)))
  | _ => None
  end.

(** [','.join(met_terms) if met_terms else ""] *)
Definition category_cell (config_terms : gset str) (word : Word) : str :=
  match met_terms config_terms word with
  | Some met => if decide (met = ∅) then [] else join (u ",") (set_iter met)
  | None => []
  end.

(** The dict [w] built for one word. *)
Definition csv_row (config : Config) (word : Word) : dict (option str) :=
  foldl (fun w entry =>
           dict_set (fst entry) (Some (category_cell (snd entry) word)) w)
    [ (u "verse_id", Some (verse_id word));
      (u "form", Some (form word));
      (u "transliterated_form", Some (transliterated_form word));
      (u "lemma", lemma word);
      (u "transliterated_lemma", transliterated_lemma word);
      (u "fts", csv_fts word);
      (u "translation", translation word) ]
    config.

(** The header is [w.keys()] for the [w] of the last word; with no word
    at all the name [w] was never bound.  The result is the header and the
    rows handed to [writerow]. *)
Definition write_csv (words : list Word) (config : Config)
    : result (list str * list (dict (option str))) :=
  let out := map (csv_row config) words in
  match last out with
  | None => Raise UnboundLocalError
  | Some w => Ok (dict_keys w, out)
  end.

(** *** [__main__] *)

Definition main (configfile : option (list str)) (files : list reader)
    : result output :=
  let config := read_config configfile in
  words <-! parse_files config files;;
  match config with
  | None => Ok (ConfigWritten (write_config words))
  | Some c =>
      r <-! write_csv words c;;
      Ok (CsvWritten (fst r) (snd r))
  end.

(** Two runs on the same corpus, the second one reading what the first
    one wrote.  Both runs iterate over sets in the same order here, which
    two runs of the program need not do: it is used for corpora without
    tags only, where the order shows nowhere. *)
Definition run_twice (files : list reader) : result output :=
  r <-! main None files;;
  match r with
  | ConfigWritten text => main (Some (readlines text)) files
  | CsvWritten _ _ => Ok r
  end.

End Writers.

(** The lines of the built-in categories, which [write_config] writes
    whatever the corpus holds. *)
Definition default_lines : str :=
  fst (foldl write_config_category ([], []) DEFAULT_PARTS).

(** [str.lower] on ASCII letters, for the examples. *)
Definition ascii_lower (s : str) : str :=
  map (fun c => if (65 <=? c) && (c <=? 90) then c + 32 else c) s.

(** ** Splitting at whitespace, in the words of the specification

    The specification says that the tag string is "split on whitespace".
    [split_whitespace] is that operation ([str.split()] without argument):
    tokens are the maximal runs of non-whitespace characters. *)
Fixpoint split_whitespace_from (cur : str) (s : str) : list str :=
  match s with
  | [] => if truthy cur then [rev cur] else []
  | c :: s' =>
      if is_space c
      then (if truthy cur then rev cur :: split_whitespace_from [] s'
            else split_whitespace_from [] s')
      else split_whitespace_from (c :: cur) s'
  end.

Definition split_whitespace (s : str) : list str :=
  split_whitespace_from [] s.

(** [s.split(c, 1)]: splitting at the first occurrence of [c] only, which
    is what the specification's "split on the first colon" describes. *)
Fixpoint split_first (c : N) (s : str) : list str :=
  match s with
  | [] => [[]]
  | x :: s' =>
      if x =? c then [[]; s']
      else match split_first c s' with
           | h :: t => (x :: h) :: t
           | [] => [[x]]
           end
  end.

(** The tokens of a cell of comma-separated values; the empty cell holds
    no token. *)
Definition tokens_of (cell : str) : list str :=
  if truthy cell then split_on COMMA cell else [].

(** ** The link between the tags and the resolved parts of a parsed word *)

(** What the parser stores in [parts] for a word whose [fts] is [tags]. *)
Definition parts_of_tags (config : ConfigType) (tags : option (list str))
    : option (dict part_value) :=
  match config, tags with
  | Some c, Some l => Some (parts_comprehension c l [])
  | _, _ => None
  end.

Definition word_resolved (config : ConfigType) (w : Word) : Prop :=
  parts w = parts_of_tags config (fts w).

(** ** The order that [sorted] establishes *)

(** [a] comes no later than [b] in the order of their keys. *)
Definition key_le (key : str -> str) (a b : str) : Prop :=
  str_le (key a) (key b) = true.

(** ** What [read_config] guarantees about a config *)

(** The category names are distinct (the config is a dict) and no value
    contains a comma (the values come from a split at the commas). *)
Definition config_wf (c : Config) : Prop :=
  NoDup (dict_keys c) /\
  forall title terms t,
    dict_get title c = Some terms -> t ∈ terms -> COMMA ∉ t.

(** ** Where the verse identifiers of a file are *)

(** [verse_blocks pre]: the lines [pre] are a sequence of complete verse
    blocks, each made of an identifier line, body lines that are not blank
    once stripped, and the blank line that ends the verse.  The line that
    follows such a prefix is read by [parse_verse] as a verse identifier. *)
Inductive verse_blocks : reader -> Prop :=
| verse_blocks_nil : verse_blocks []
| verse_blocks_cons (ident : str) (body : list str) (blank : str)
    (rest : reader) :
    truthy ident = true ->
    Forall (fun l => strip l <> []) body ->
    strip blank = [] ->
    verse_blocks rest ->
    verse_blocks (ident :: body ++ blank :: rest).

(** ** Comparing the words of two runs *)

(** A word without its resolved parts. *)
Definition clear_parts (w : Word) : Word :=
  {| verse_id := verse_id w; form := form w;
     transliterated_form := transliterated_form w;
     fts := fts w; parts := None;
     lemma := lemma w; transliterated_lemma := transliterated_lemma w;
     translation := translation w |}.

Definition rmap {A B} (g : A -> B) (r : result A) : result B :=
  match r with
  | Ok a => Ok (g a)
  | Raise e => Raise e
  end.

(** ** The fixed columns of the table *)

(** The dict literal with which [write_csv] starts the row of a word. *)
Definition csv_fixed (word : Word) : dict (option str) :=
  [ (u "verse_id", Some (verse_id word));
    (u "form", Some (form word));
    (u "transliterated_form", Some (transliterated_form word));
    (u "lemma", lemma word);
    (u "transliterated_lemma", transliterated_lemma word);
    (u "fts", csv_fts word);
    (u "translation", translation word) ].

(** Its keys. *)
Definition fixed_columns : list str :=
  [u "verse_id"; u "form"; u "transliterated_form"; u "lemma";
   u "transliterated_lemma"; u "fts"; u "translation"].

(** ** Example inputs *)

Definition suffix_line_example : str :=
  join [TAB] [u "nu"; u "nu"; u "Suffix pronoun"] ++ [NL].

Definition word6_line_example : str :=
  join [TAB] [u "bereshit"; u "breshit"; u "rosh"; u "rosh";
              u "Noun feminine"; u "In the beginning"] ++ [NL].

Definition word5_line_example : str :=
  join [TAB] [u "et"; u "et"; u "et"; u "et"; u "(object marker)"] ++ [NL].

Definition word6_empty_tags_example : str :=
  join [TAB] [u "bara"; u "bara"; u "bara"; u "bara"; []; u "created"]
  ++ [NL].

Definition tab_ident_file_example : reader :=
  [u "Gen.1.1" ++ [NL]; suffix_line_example; [NL];
   u "Gen" ++ [TAB] ++ u "1.2" ++ [NL]; suffix_line_example].

Definition resolved_config_example : Config :=
  [(u "pos", {[ u "noun"; u "verb" ]})].

Definition resolved_file_example : reader :=
  [u "Gen.1.1" ++ [NL]; suffix_line_example].

Definition resolved_word_example : Word :=
  {| verse_id := u "Gen.1.1"; form := u "nu"; transliterated_form := u "nu";
     fts := Some [u "Suffix"; u "pronoun"];
     parts := Some [(u "Suffix", PTag (u "Suffix"));
                    (u "pronoun", PTag (u "pronoun"))];
     lemma := None; transliterated_lemma := None; translation := None |}.

Definition hiphil_word_example : Word :=
  {| verse_id := u "Gen.1.1"; form := u "hivdil";
     transliterated_form := u "hivdil";
     fts := Some [u "Verb"; u "Hiphil"; u "absolute"; u "perfect"];
     parts := None;
     lemma := Some (u "badal"); transliterated_lemma := Some (u "badal");
     translation := Some (u "he divided") |}.

Definition csv_config_lines_example : list str :=
  [u "pos:Suffix,Noun" ++ [NL]].

Definition csv_config_example : Config :=
  [(u "pos", {[ u "Suffix"; u "Noun" ++ [NL] ]})].

Definition csv_word_example : Word :=
  {| verse_id := u "Gen.1.1"; form := u "nu"; transliterated_form := u "nu";
     fts := Some [u "Suffix"; u "pronoun"];
     parts := Some [(u "Suffix", PTag (u "Suffix"));
                    (u "pronoun", PTag (u "pronoun"))];
     lemma := None; transliterated_lemma := None; translation := None |}.

Definition suffix_word_example : Word :=
  {| verse_id := u "Gen.1.1"; form := u "nu"; transliterated_form := u "nu";
     fts := Some [u "Suffix"; u "pronoun"]; parts := None;
     lemma := None; transliterated_lemma := None; translation := None |}.

Definition skipped_body_example : reader :=
  [u "[1] a note" ++ [NL]; suffix_line_example;
   u "a variant ]" ++ [NL]; [NL]; u "Gen.1.2" ++ [NL]].

Definition empty_translation_line_example : str :=
  join [TAB] [u "bara"; u "bara"; u "bara"; u "bara"; u "Verb qal"; []]
  ++ [NL].

Definition two_verses_example : reader :=
  [u "Gen.1.1" ++ [NL]; suffix_line_example; [NL];
   u "Gen.1.2" ++ [NL]; word5_line_example].

Definition form_config_example : Config :=
  [(u "form", {[ u "Suffix" ]}); (u "pos", {[ u "pronoun" ]})].

(** The config that [read_config] gives for the built-in lines as
    [write_config] writes them: every value keeps the space that follows the
    colon or the comma, and the last value of a line keeps the newline. *)
Definition built_in_config_example : Config :=
  [ (u "verse", {[ u " Particle"; u " Verb"; u " Noun"; u " Suffix";
                   u " Pronoun"; u " Adjective"; u " Paragraph";
                   u " Noun" ++ [NL] ]});
    (u "pos", {[ u " noun"; u " verb"; u " particle";
                 u " adjective" ++ [NL] ]});
    (u "number", {[ u " singular"; u " plural" ++ [NL] ]});
    (u "gender", {[ u " masculine"; u " feminine" ++ [NL] ]});
    (u "tense", {[ u " perfect"; u " imperfect" ++ [NL] ]});
    (u "person", {[ u " first"; u " second"; u " third" ++ [NL] ]});
    (u "binyan", {[ u " qal"; u " piel"; u " hifil"; u " nifal"; u " pual";
                    u " hitpael"; u " hofal"; u " passiveqal"; u " polel";
                    u " hitpolel" ++ [NL] ]}) ].

Definition verb_file_example : reader :=
  [u "Gen.1.1" ++ [NL];
   join [TAB] [u "bara"; u "bara"; u "bara"; u "bara"; u "Verb qal perfect";
               u "created"] ++ [NL]].

Definition verb_word_example : Word :=
  {| verse_id := u "Gen.1.1"; form := u "bara";
     transliterated_form := u "bara";
     fts := Some [u "Verb"; u "qal"; u "perfect"];
     parts := Some [(u "Verb", PTag (u "Verb")); (u "qal", PTag (u "qal"));
                    (u "perfect", PTag (u "perfect"))];
     lemma := Some (u "bara"); transliterated_lemma := Some (u "bara");
     translation := Some (u "created") |}.

Definition colon_file_example : reader :=
  [u "Gen.1.1" ++ [NL];
   join [TAB] [u "nu"; u "nu"; u "Suffix 1:pl"] ++ [NL]].

Definition colon_word_example : Word :=
  {| verse_id := u "Gen.1.1"; form := u "nu"; transliterated_form := u "nu";
     fts := Some [u "Suffix"; u "1:pl"]; parts := None;
     lemma := None; transliterated_lemma := None; translation := None |}.

(** * Properties *)

(** ** Strings *)

Lemma split_on_cons (c : N) (s : str) :
  exists h t, split_on c s = h :: t.
Proof.
  destruct s as [|x s]; simpl; [by eauto|].
  destruct (x =? c); [by eauto|].
  destruct (split_on c s); eauto.
Qed.

Lemma split_on_no_sep (c : N) (s : str) :
  Forall (fun x => c ∉ x) (split_on c s).
Proof.
  induction s as [|x s IH]; simpl.
  - constructor; [|constructor]. by intros ?%elem_of_nil.
  - destruct (N.eqb_spec x c) as [->|Hne].
    + constructor; [|done]. by intros ?%elem_of_nil.
    + destruct (split_on c s) as [|h t]; [repeat constructor|].
      * intros [?|?%elem_of_nil]%elem_of_cons; congruence.
      * inversion IH; subst. constructor; [|done].
        intros [?|?]%elem_of_cons; [congruence|done].
Qed.

Lemma length_split_on (c : N) (s : str) :
  length (split_on c s) = S (count_occ N.eq_dec s c).
Proof.
  induction s as [|x s IH]; simpl; [done|].
  destruct (N.eqb_spec x c) as [->|Hne].
  - destruct (N.eq_dec c c); [|done]. simpl. by rewrite IH.
  - destruct (N.eq_dec x c); [done|].
    destruct (split_on c s); simpl in *; [done|]. by rewrite <- IH.
Qed.

Lemma split_on_app_sep (c : N) (x s : str) :
  c ∉ x -> split_on c (x ++ c :: s) = x :: split_on c s.
Proof.
  induction x as [|a x IH]; simpl; intros Hx.
  - by rewrite N.eqb_refl.
  - destruct (N.eqb_spec a c) as [->|Hne]; [set_solver|].
    rewrite IH; [done|set_solver].
Qed.

Lemma split_on_id (c : N) (x : str) : c ∉ x -> split_on c x = [x].
Proof.
  induction x as [|a x IH]; simpl; intros Hx; [done|].
  destruct (N.eqb_spec a c) as [->|Hne]; [set_solver|].
  rewrite IH; [done|set_solver].
Qed.

(** Splitting a joined list gives the list back, when no element contains
    the separator. *)
Lemma split_on_join (c : N) (l : list str) :
  l <> [] -> Forall (fun x => c ∉ x) l -> split_on c (join [c] l) = l.
Proof.
  induction l as [|x l IH]; [done|]. intros _ Hall.
  inversion Hall as [|? ? Hx Hl]; subst.
  destruct l as [|y l]; simpl.
  - by apply split_on_id.
  - change (x ++ [c] ++ join [c] (y :: l)) with (x ++ c :: join [c] (y :: l)).
    rewrite split_on_app_sep by done. f_equal. by apply IH.
Qed.

(** *** Where splitting at spaces and splitting at whitespace agree *)

Lemma split_whitespace_from_token (cur x rest : str) :
  Forall (fun c => is_space c = false) x ->
  split_whitespace_from cur (x ++ rest) =
    split_whitespace_from (rev x ++ cur) rest.
Proof.
  intros Hx. revert cur. induction Hx as [|c x Hc Hx IH]; intros cur; [done|].
  simpl. rewrite Hc, IH. by rewrite <- app_assoc.
Qed.

Lemma truthy_rev {A} (l : list A) : truthy (rev l) = truthy l.
Proof.
  destruct l as [|a l]; [done|]. simpl. by destruct (rev l).
Qed.

Lemma split_whitespace_join (l : list str) :
  Forall (fun x => x <> [] /\ Forall (fun c => is_space c = false) x) l ->
  split_whitespace (join [SPACE] l) = l.
Proof.
  unfold split_whitespace. induction 1 as [|x l [Hne Hx] Hl IH]; [done|].
  assert (truthy (rev x) = true) as Htruthy.
  { rewrite truthy_rev. by destruct x. }
  destruct l as [|y l].
  - simpl. rewrite <- (app_nil_r x) at 1.
    rewrite split_whitespace_from_token by done. simpl.
    by rewrite app_nil_r, Htruthy, rev_involutive.
  - change (join [SPACE] (x :: y :: l))
      with (x ++ SPACE :: join [SPACE] (y :: l)).
    rewrite split_whitespace_from_token by done.
    rewrite app_nil_r. cbn [split_whitespace_from].
    change (is_space SPACE) with true. cbn iota.
    by rewrite Htruthy, rev_involutive, IH.
Qed.

(** For tags that are non-empty, free of whitespace and separated by single
    spaces, the split of the code and the split of the specification give
    the same tags. *)
Lemma split_on_space_clean (l : list str) :
  l <> [] ->
  Forall (fun x => x <> [] /\ Forall (fun c => is_space c = false) x) l ->
  split_on SPACE (join [SPACE] l) = l /\
  split_whitespace (join [SPACE] l) = l.
Proof.
  intros Hl Hclean. split; [|by apply split_whitespace_join].
  apply split_on_join; [done|]. eapply Forall_impl; [exact Hclean|].
  intros x [_ Hx] Hin. rewrite Forall_forall in Hx.
  by specialize (Hx SPACE Hin).
Qed.

(** ** The parser always returns, or fails the tab assertion *)

Lemma index_Some {A} (l : list A) (i : nat) (a : A) :
  l !! i = Some a -> index l i = Ok a.
Proof. unfold index. by intros ->. Qed.

Lemma parse_suffix_3 verse config (f0 f1 f2 : str) :
  parse_suffix verse [f0; f1; f2] config =
    Ok {| verse_id := verse; form := f0; transliterated_form := f1;
          fts := Some (split_on SPACE f2);
          parts := handle_parts f2 config;
          lemma := None; transliterated_lemma := None;
          translation := None |}.
Proof. reflexivity. Qed.

Lemma parse_word_5 verse config (f0 f1 f2 f3 f4 : str) :
  parse_word verse [f0; f1; f2; f3; f4] config =
    Ok {| verse_id := verse; form := f0; transliterated_form := f1;
          fts := None; parts := None;
          lemma := Some f2; transliterated_lemma := Some f3;
          translation := Some f4 |}.
Proof. reflexivity. Qed.

Lemma parse_word_6 verse config (f0 f1 f2 f3 f4 f5 : str) :
  parse_word verse [f0; f1; f2; f3; f4; f5] config =
    Ok {| verse_id := verse; form := f0; transliterated_form := f1;
          fts := Some (split_on SPACE f4);
          parts := handle_parts f4 config;
          lemma := Some f2; transliterated_lemma := Some f3;
          translation := Some f5 |}.
Proof. reflexivity. Qed.

Ltac list_of_length l :=
  repeat (destruct l as [|? l]; simpl in *; try lia; try discriminate).

Lemma parse_suffix_ok verse config (fields : list str) :
  length fields = 3%nat -> exists w, parse_suffix verse fields config = Ok w.
Proof. intros H. list_of_length fields. eauto. Qed.

Lemma parse_word_ok verse config (fields : list str) :
  length fields = 5%nat \/ length fields = 6%nat ->
  exists w, parse_word verse fields config = Ok w.
Proof.
  intros [H|H]; list_of_length fields.
  - rewrite parse_word_5. eauto.
  - rewrite parse_word_6. eauto.
Qed.

Lemma parse_verse_body_ok verse config (f : reader) :
  exists ws rest,
    parse_verse_body verse config f = Ok (ws, rest) /\
    (length rest <= length f)%nat /\
    (f <> [] -> length rest < length f)%nat.
Proof.
  induction f as [|raw f (ws & rest & IH & Hle & Hlt)]; simpl.
  - exists [], []. split; [done|]. split; [simpl; lia|done].
  - destruct (is_skipped (strip raw)).
    { exists ws, rest. split; [done|]. split; [lia|]. intros _; lia. }
    destruct (truthy (strip raw)); simpl.
    2:{ exists [], f. split; [done|]. split; [lia|]. intros _; lia. }
    repeat case_decide.
    + destruct (parse_suffix_ok verse config (split_on TAB (strip raw)))
        as [w ->]; [done|].
      rewrite IH. simpl. exists (w :: ws), rest.
      split; [done|]. split; [lia|]. intros _; lia.
    + destruct (parse_word_ok verse config (split_on TAB (strip raw)))
        as [w ->]; [done|].
      rewrite IH. simpl. exists (w :: ws), rest.
      split; [done|]. split; [lia|]. intros _; lia.
    + exists ws, rest. split; [done|]. split; [lia|]. intros _; lia.
Qed.

Lemma parse_verse_cases config (f : reader) :
  parse_verse config f = Raise AssertionError \/
  exists ws rest,
    parse_verse config f = Ok (ws, rest) /\
    (length rest <= length f)%nat /\
    (f <> [] -> length rest < length f)%nat.
Proof.
  unfold parse_verse. destruct f as [|raw f]; simpl.
  - right. exists [], []. split; [done|]. split; [simpl; lia|done].
  - destruct (contains [TAB] (strip raw)); [by left|]. right.
    destruct (parse_verse_body_ok (strip raw) config f)
      as (ws & rest & -> & Hle & _).
    exists ws, rest. split; [done|]. split; [lia|]. intros _; lia.
Qed.

Lemma parse_file_loop_total (fuel : nat) config (f : reader) :
  (length f < fuel)%nat ->
  parse_file_loop fuel config f = Raise AssertionError \/
  exists ws, parse_file_loop fuel config f = Ok ws.
Proof.
  revert f. induction fuel as [|fuel IH]; intros f Hfuel; [lia|].
  simpl. destruct (parse_verse_cases config f)
    as [->|(ws & rest & -> & Hle & Hlt)]; [by left|].
  simpl. destruct (has_another_line rest) eqn:Hmore; [|by eauto].
  assert (f <> []) as Hf.
  { intros ->. simpl in Hle. destruct rest; [done|simpl in Hle; lia]. }
  destruct (IH rest) as [->|[ws' ->]]; [specialize (Hlt Hf); lia|by left|].
  right. simpl. eauto.
Qed.

(** [parse_file] never runs out of fuel: it returns the words of the file
    or fails the assertion of [parse_verse]. *)
Lemma parse_file_total (f : reader) config :
  parse_file f config = Raise AssertionError \/
  exists ws, parse_file f config = Ok ws.
Proof. apply parse_file_loop_total. lia. Qed.

Lemma parse_files_total config (files : list reader) :
  parse_files config files = Raise AssertionError \/
  exists ws, parse_files config files = Ok ws.
Proof.
  induction files as [|f files IH]; simpl; [by eauto|].
  destruct (parse_file_total f config) as [->|[ws ->]]; [by left|].
  simpl. destruct IH as [->|[ws' ->]]; [by left|]. right. simpl. eauto.
Qed.

(** ** VerseParser: what one data line of a verse body yields *)

Lemma split_fields_truthy (line : str) (f0 f1 : str) (fs : list str) :
  split_on TAB line = f0 :: f1 :: fs -> truthy line = true.
Proof. destruct line; [discriminate|done]. Qed.

(** A line of three fields adds the word built by [parse_suffix] in front of
    what the rest of the verse yields. *)
Lemma parse_verse_body_suffix verse config (raw : str) (rest : reader)
    (f0 f1 f2 : str) :
  is_skipped (strip raw) = false ->
  split_on TAB (strip raw) = [f0; f1; f2] ->
  exists ws rest',
    parse_verse_body verse config rest = Ok (ws, rest') /\
    parse_verse_body verse config (raw :: rest) =
      Ok ({| verse_id := verse; form := f0; transliterated_form := f1;
             fts := Some (split_on SPACE f2);
             parts := handle_parts f2 config;
             lemma := None; transliterated_lemma := None;
             translation := None |} :: ws, rest').
Proof.
  intros Hskip Hsplit.
  destruct (parse_verse_body_ok verse config rest) as (ws & rest' & Hrest & _).
  exists ws, rest'. split; [done|]. simpl.
  rewrite Hskip, (split_fields_truthy _ _ _ _ Hsplit), Hsplit. simpl.
  by rewrite Hrest.
Qed.

Lemma parse_verse_body_word6 verse config (raw : str) (rest : reader)
    (f0 f1 f2 f3 f4 f5 : str) :
  is_skipped (strip raw) = false ->
  split_on TAB (strip raw) = [f0; f1; f2; f3; f4; f5] ->
  exists ws rest',
    parse_verse_body verse config rest = Ok (ws, rest') /\
    parse_verse_body verse config (raw :: rest) =
      Ok ({| verse_id := verse; form := f0; transliterated_form := f1;
             fts := Some (split_on SPACE f4);
             parts := handle_parts f4 config;
             lemma := Some f2; transliterated_lemma := Some f3;
             translation := Some f5 |} :: ws, rest').
Proof.
  intros Hskip Hsplit.
  destruct (parse_verse_body_ok verse config rest) as (ws & rest' & Hrest & _).
  exists ws, rest'. split; [done|]. simpl.
  rewrite Hskip, (split_fields_truthy _ _ _ _ Hsplit), Hsplit. simpl.
  by rewrite Hrest.
Qed.

Lemma parse_verse_body_word5 verse config (raw : str) (rest : reader)
    (f0 f1 f2 f3 f4 : str) :
  is_skipped (strip raw) = false ->
  split_on TAB (strip raw) = [f0; f1; f2; f3; f4] ->
  exists ws rest',
    parse_verse_body verse config rest = Ok (ws, rest') /\
    parse_verse_body verse config (raw :: rest) =
      Ok ({| verse_id := verse; form := f0; transliterated_form := f1;
             fts := None; parts := None;
             lemma := Some f2; transliterated_lemma := Some f3;
             translation := Some f4 |} :: ws, rest').
Proof.
  intros Hskip Hsplit.
  destruct (parse_verse_body_ok verse config rest) as (ws & rest' & Hrest & _).
  exists ws, rest'. split; [done|]. simpl.
  rewrite Hskip, (split_fields_truthy _ _ _ _ Hsplit), Hsplit. simpl.
  by rewrite Hrest.
Qed.

(** C2, as amended.  Each line of a verse body is first stripped of its
    surrounding whitespace, tabs included.  A line that is not skipped and
    that, once stripped, splits into exactly three tab-delimited fields
    yields one Word, placed before the words of the following lines; its
    lemma, transliterated lemma and translation are absent, and its tags
    are the third field of the stripped line split at every single space
    character (U+0020): two adjacent spaces give an empty tag, and other
    whitespace characters do not separate tags. *)
Theorem suffix_line_tags verse config (raw : str) (rest : reader)
    (f0 f1 f2 : str) :
  is_skipped (strip raw) = false ->
  split_on TAB (strip raw) = [f0; f1; f2] ->
  exists w ws rest',
    parse_verse_body verse config rest = Ok (ws, rest') /\
    parse_verse_body verse config (raw :: rest) = Ok (w :: ws, rest') /\
    form w = f0 /\ transliterated_form w = f1 /\
    lemma w = None /\ transliterated_lemma w = None /\
    translation w = None /\
    fts w = Some (split_on SPACE f2).
Proof.
  intros Hskip Hsplit.
  destruct (parse_verse_body_suffix verse config raw rest f0 f1 f2)
    as (ws & rest' & Hrest & Hline); [done..|].
  eexists _, ws, rest'. split; [done|]. split; [exact Hline|]. done.
Qed.

Lemma suffix_line_tags_witness :
  exists w ws rest',
    parse_verse_body (u "Gen.1.1") None [] = Ok (ws, rest') /\
    parse_verse_body (u "Gen.1.1") None [suffix_line_example] =
      Ok (w :: ws, rest') /\
    form w = u "nu" /\ transliterated_form w = u "nu" /\
    lemma w = None /\ transliterated_lemma w = None /\
    translation w = None /\
    fts w = Some (split_on SPACE (u "Suffix pronoun")).
Proof.
  apply (suffix_line_tags (u "Gen.1.1") None suffix_line_example []
           (u "nu") (u "nu") (u "Suffix pronoun")).
  - vm_compute. reflexivity.
  - vm_compute. reflexivity.
Defined.

(** C2, as stated, fails: with two spaces between the tags the code yields
    an empty tag in between, which splitting on whitespace never does.  And
    the fields that count are those of the stripped line: a line of three
    tab-delimited fields that starts with a tab has two fields left once
    stripped, and yields no Word. *)
Lemma suffix_line_whitespace_counterexample :
  let raw := join [TAB] [u "nu"; u "nu"; u "Suffix  pronoun"] ++ [NL] in
  let raw' := join [TAB] [[]; u "nu"; u "Suffix"] in
  is_skipped (strip raw) = false /\
  split_on TAB (strip raw) = [u "nu"; u "nu"; u "Suffix  pronoun"] /\
  split_whitespace (u "Suffix  pronoun") = [u "Suffix"; u "pronoun"] /\
  split_on TAB raw' = [[]; u "nu"; u "Suffix"] /\
  parse_verse_body (u "Gen.1.1") None [raw'] = Ok ([], []) /\
  exists w,
    parse_verse_body (u "Gen.1.1") None [raw] = Ok ([w], []) /\
    fts w = Some [u "Suffix"; []; u "pronoun"] /\
    fts w <> Some (split_whitespace (u "Suffix  pronoun")).
Proof.
  cbv zeta. repeat split; try (vm_compute; reflexivity).
  eexists. split; [vm_compute; reflexivity|]. split; [reflexivity|].
  vm_compute. discriminate.
Qed.

(** C3, as amended.  Each line of a verse body is first stripped of its
    surrounding whitespace, tabs included.  A line that is not skipped and
    that, once stripped, splits into six tab-delimited fields yields a
    Word whose tags are present and are the fifth field split at every
    single space character (U+0020); a line that, once stripped, splits into
    five fields yields a Word whose tags are absent.  In both cases the
    translation is the last field of the stripped line. *)
Theorem word_line_tags verse config (raw : str) (rest : reader)
    (f0 f1 f2 f3 f4 f5 : str) :
  is_skipped (strip raw) = false ->
  (split_on TAB (strip raw) = [f0; f1; f2; f3; f4; f5] ->
   exists w ws rest',
     parse_verse_body verse config rest = Ok (ws, rest') /\
     parse_verse_body verse config (raw :: rest) = Ok (w :: ws, rest') /\
     fts w = Some (split_on SPACE f4) /\
     translation w = Some f5) /\
  (split_on TAB (strip raw) = [f0; f1; f2; f3; f4] ->
   exists w ws rest',
     parse_verse_body verse config rest = Ok (ws, rest') /\
     parse_verse_body verse config (raw :: rest) = Ok (w :: ws, rest') /\
     fts w = None /\
     translation w = Some f4).
Proof.
  intros Hskip. split; intros Hsplit.
  - destruct (parse_verse_body_word6 verse config raw rest f0 f1 f2 f3 f4 f5)
      as (ws & rest' & Hrest & Hline); [done..|].
    eexists _, ws, rest'. split; [done|]. split; [exact Hline|]. done.
  - destruct (parse_verse_body_word5 verse config raw rest f0 f1 f2 f3 f4)
      as (ws & rest' & Hrest & Hline); [done..|].
    eexists _, ws, rest'. split; [done|]. split; [exact Hline|]. done.
Qed.

Lemma word_line_tags_witness :
  (exists w ws rest',
     parse_verse_body (u "Gen.1.1") None [] = Ok (ws, rest') /\
     parse_verse_body (u "Gen.1.1") None [word6_line_example] =
       Ok (w :: ws, rest') /\
     fts w = Some (split_on SPACE (u "Noun feminine")) /\
     translation w = Some (u "In the beginning")) /\
  (exists w ws rest',
     parse_verse_body (u "Gen.1.1") None [] = Ok (ws, rest') /\
     parse_verse_body (u "Gen.1.1") None [word5_line_example] =
       Ok (w :: ws, rest') /\
     fts w = None /\
     translation w = Some (u "(object marker)")).
Proof.
  split.
  - apply (word_line_tags (u "Gen.1.1") None word6_line_example []
             (u "bereshit") (u "breshit") (u "rosh") (u "rosh")
             (u "Noun feminine") (u "In the beginning")).
    + vm_compute. reflexivity.
    + vm_compute. reflexivity.
  - apply (word_line_tags (u "Gen.1.1") None word5_line_example []
             (u "et") (u "et") (u "et") (u "et") (u "(object marker)") []).
    + vm_compute. reflexivity.
    + vm_compute. reflexivity.
Defined.

(** C3, as stated, fails: a no-break space (U+00A0) between two tags of a
    six-field line is whitespace, yet the code keeps both in a single tag.
    And the fields that count are those of the stripped line: a line of six
    tab-delimited fields whose last field is empty has five fields left
    once stripped; its tags are absent and its tag string becomes the
    translation. *)
Lemma word_line_whitespace_counterexample :
  let tagstring := u "Noun" ++ [160] ++ u "feminine" in
  let raw := join [TAB] [u "bereshit"; u "breshit"; u "rosh"; u "rosh";
                         tagstring; u "In the beginning"] ++ [NL] in
  let raw' := join [TAB] [u "bara"; u "bara"; u "bara"; u "bara";
                          u "Verb qal"; []] in
  split_on TAB raw' =
    [u "bara"; u "bara"; u "bara"; u "bara"; u "Verb qal"; []] /\
  (exists w',
     parse_verse_body (u "Gen.1.1") None [raw'] = Ok ([w'], []) /\
     fts w' = None /\ translation w' = Some (u "Verb qal")) /\
  is_skipped (strip raw) = false /\
  split_on TAB (strip raw) =
    [u "bereshit"; u "breshit"; u "rosh"; u "rosh"; tagstring;
     u "In the beginning"] /\
  split_whitespace tagstring = [u "Noun"; u "feminine"] /\
  exists w,
    parse_verse_body (u "Gen.1.1") None [raw] = Ok ([w], []) /\
    fts w = Some [tagstring] /\
    fts w <> Some (split_whitespace tagstring).
Proof.
  cbv zeta. split; [vm_compute; reflexivity|]. split.
  { eexists. split; [vm_compute; reflexivity|].
    split; vm_compute; reflexivity. }
  repeat split; try (vm_compute; reflexivity).
  eexists. split; [vm_compute; reflexivity|]. split; [reflexivity|].
  vm_compute. discriminate.
Qed.

(** ** Dictionaries *)

Lemma dict_get_set_eq {V} (k : str) (v : V) (d : dict V) :
  dict_get k (dict_set k v d) = Some v.
Proof.
  induction d as [|[k' v'] d IH]; simpl.
  - by rewrite decide_True.
  - destruct (decide (k = k')) as [->|Hne]; simpl.
    + by rewrite decide_True.
    + by rewrite decide_False.
Qed.

Lemma dict_get_set_ne {V} (k k' : str) (v : V) (d : dict V) :
  k <> k' -> dict_get k' (dict_set k v d) = dict_get k' d.
Proof.
  intros Hne. induction d as [|[k0 v0] d IH]; simpl.
  - by rewrite decide_False.
  - destruct (decide (k = k0)) as [->|Hne0]; simpl.
    + by rewrite !decide_False.
    + by rewrite IH.
Qed.

Lemma dict_keys_set {V} (k k' : str) (v : V) (d : dict V) :
  k' ∈ dict_keys (dict_set k v d) <-> k' = k \/ k' ∈ dict_keys d.
Proof.
  unfold dict_keys. induction d as [|[k0 v0] d IH]; simpl.
  - rewrite elem_of_cons, elem_of_nil. tauto.
  - destruct (decide (k = k0)) as [->|Hne]; simpl.
    + rewrite !elem_of_cons. tauto.
    + rewrite !elem_of_cons, IH. tauto.
Qed.

Lemma dict_get_foldl_set {V} (f : gset str -> V) (title : str)
    (terms : gset str) (config : Config) (base : dict V) :
  dict_get title config = Some terms ->
  NoDup (dict_keys config) ->
  dict_get title
    (foldl (fun w entry => dict_set (fst entry) (f (snd entry)) w)
       base config) = Some (f terms).
Proof.
  revert base. induction config as [|[k v] config IH]; intros base; [done|].
  simpl. intros Hget Hnodup. apply NoDup_cons in Hnodup as [Hk Hnodup].
  destruct (decide (title = k)) as [->|Hne].
  - injection Hget as ->. clear IH.
    assert (forall b : dict V, dict_get k b = Some (f terms) ->
      dict_get k (foldl (fun w entry =>
        dict_set (fst entry) (f (snd entry)) w) b config) = Some (f terms))
      as Hkeep.
    { clear Hnodup. induction config as [|[k1 v1] config IH]; [done|].
      apply not_elem_of_cons in Hk as [Hk1 Hk].
      intros b Hb. simpl. apply IH; [done|].
      by rewrite dict_get_set_ne. }
    apply Hkeep, dict_get_set_eq.
  - by apply IH.
Qed.

Lemma dict_get_foldl_set_None {V} (f : gset str -> V) (k : str)
    (config : Config) (base : dict V) :
  dict_get k config = None ->
  dict_get k
    (foldl (fun w entry => dict_set (fst entry) (f (snd entry)) w)
       base config) = dict_get k base.
Proof.
  revert base. induction config as [|[k1 v1] config IH]; intros base; [done|].
  simpl. destruct (decide (k = k1)) as [->|Hne]; [done|]. intros Hget.
  rewrite IH by done. by apply dict_get_set_ne.
Qed.

(** ** An empty tag field (C10) *)

(** C10, as amended.  Each line of a verse body is first stripped of its
    surrounding whitespace, tabs included.  A line that is not skipped and
    that, once stripped, splits into six tab-delimited fields, the fifth of
    which is empty, yields a Word whose tags are present and are the
    one-element list holding the empty string; the table writer computes
    ["[]"] for its [fts] column, which is what the row holds under every
    config that has no category named [fts] (a category of that name
    overwrites the column with its own cell). *)
Theorem empty_tag_field verse config (raw : str) (rest : reader)
    (f0 f1 f2 f3 f5 : str) :
  is_skipped (strip raw) = false ->
  split_on TAB (strip raw) = [f0; f1; f2; f3; []; f5] ->
  exists w ws rest',
    parse_verse_body verse config rest = Ok (ws, rest') /\
    parse_verse_body verse config (raw :: rest) = Ok (w :: ws, rest') /\
    fts w = Some [[]] /\
    csv_fts w = Some (u "[]") /\
    forall set_iter (c : Config),
      dict_get (u "fts") c = None ->
      dict_get (u "fts") (csv_row set_iter c w) = Some (Some (u "[]")).
Proof.
  intros Hskip Hsplit.
  destruct (parse_verse_body_word6 verse config raw rest f0 f1 f2 f3 [] f5)
    as (ws & rest' & Hrest & Hline); [done..|].
  eexists _, ws, rest'. split; [done|]. split; [exact Hline|].
  split; [done|]. split; [done|].
  intros set_iter c Hc. unfold csv_row.
  rewrite (dict_get_foldl_set_None
             (fun terms => Some (category_cell set_iter terms _))); done.
Qed.

Lemma empty_tag_field_witness :
  exists w ws rest',
    parse_verse_body (u "Gen.1.1") None [] = Ok (ws, rest') /\
    parse_verse_body (u "Gen.1.1") None [word6_empty_tags_example] =
      Ok (w :: ws, rest') /\
    fts w = Some [[]] /\
    csv_fts w = Some (u "[]") /\
    forall set_iter (c : Config),
      dict_get (u "fts") c = None ->
      dict_get (u "fts") (csv_row set_iter c w) = Some (Some (u "[]")).
Proof.
  apply (empty_tag_field (u "Gen.1.1") None word6_empty_tags_example []
           (u "bara") (u "bara") (u "bara") (u "bara") (u "created")).
  - vm_compute. reflexivity.
  - vm_compute. reflexivity.
Defined.

(** C10, as stated, fails in two ways.  Under a config with a category
    named [fts], the row's [fts] column is overwritten by that category's
    cell, here the empty string, although the Word's tags are [['']].  And
    the fields that count are those of the stripped line: a line of six
    tab-delimited fields with an empty fifth field that starts with a tab
    has five fields left once stripped, and its tags are absent. *)
Lemma empty_tag_field_counterexample :
  let c : Config := [(u "fts", {[ u "Noun" ]})] in
  let raw := word6_empty_tags_example in
  let raw' := join [TAB] [[]; u "bara"; u "bara"; u "bara"; []; u "created"] in
  read_config (Some [u "fts:Noun"]) = Some c /\
  (exists f0 f1 f2 f3 f5,
     split_on TAB (strip raw) = [f0; f1; f2; f3; []; f5]) /\
  (exists w,
     parse_verse_body (u "Gen.1.1") (Some c) [raw] = Ok ([w], []) /\
     fts w = Some [[]] /\
     dict_get (u "fts") (csv_row elements c w) = Some (Some []) /\
     dict_get (u "fts") (csv_row elements c w) <> Some (Some (u "[]"))) /\
  split_on TAB raw' = [[]; u "bara"; u "bara"; u "bara"; []; u "created"] /\
  exists w',
    parse_verse_body (u "Gen.1.1") None [raw'] = Ok ([w'], []) /\
    fts w' = None /\ csv_fts w' = None.
Proof.
  cbv zeta. split; [vm_compute; exact eq_refl|]. split.
  { do 5 eexists. vm_compute. reflexivity. }
  split.
  { eexists. split; [vm_compute; reflexivity|].
    split; [vm_compute; reflexivity|].
    split; [vm_compute; reflexivity|]. vm_compute. discriminate. }
  split; [vm_compute; reflexivity|].
  eexists. split; [vm_compute; reflexivity|]. split; vm_compute; reflexivity.
Qed.

(** ** CategoryResolver: the resolved parts of a parsed word *)

Lemma parts_comprehension_keys (c : Config) (l : list str)
    (acc : dict part_value) (k : str) :
  k ∈ dict_keys (parts_comprehension c l acc) <-> k ∈ l \/ k ∈ dict_keys acc.
Proof.
  revert acc. induction l as [|x l IH]; intros acc; simpl.
  - rewrite elem_of_nil. tauto.
  - rewrite IH, dict_keys_set, elem_of_cons. tauto.
Qed.

Lemma parts_comprehension_get_acc (c : Config) (l : list str)
    (acc : dict part_value) (k : str) :
  k ∉ l -> dict_get k (parts_comprehension c l acc) = dict_get k acc.
Proof.
  revert acc. induction l as [|x l IH]; intros acc Hk; simpl; [done|].
  apply not_elem_of_cons in Hk as [Hne Hk].
  rewrite IH by done. by apply dict_get_set_ne.
Qed.

Lemma parts_comprehension_get (c : Config) (l : list str)
    (acc : dict part_value) (k : str) :
  k ∈ l ->
  dict_get k (parts_comprehension c l acc) = Some (config_get_default c k).
Proof.
  revert acc. induction l as [|x l IH]; intros acc Hk; simpl.
  - by apply elem_of_nil in Hk.
  - destruct (decide (k ∈ l)) as [Hin|Hnin]; [by apply IH|].
    apply elem_of_cons in Hk as [->|Hk]; [|done].
    rewrite parts_comprehension_get_acc by done. apply dict_get_set_eq.
Qed.

Lemma handle_parts_of_tags (config : ConfigType) (tagstring : str) :
  handle_parts tagstring config =
    parts_of_tags config (Some (split_on SPACE tagstring)).
Proof. by destruct config. Qed.

Lemma parse_suffix_resolved verse config (fields : list str) (w : Word) :
  parse_suffix verse fields config = Ok w -> word_resolved config w.
Proof.
  unfold parse_suffix, index, word_resolved.
  destruct (fields !! 0%nat); [|done]. destruct (fields !! 1%nat); [|done].
  destruct (fields !! 2%nat); [|done]. simpl. intros [= <-]. simpl.
  apply handle_parts_of_tags.
Qed.

Lemma parse_word_resolved verse config (fields : list str) (w : Word) :
  parse_word verse fields config = Ok w -> word_resolved config w.
Proof.
  unfold parse_word, index, index_last, word_resolved.
  destruct (fields !! 0%nat); [|done]. destruct (fields !! 1%nat); [|done].
  destruct (fields !! 2%nat); [|done]. destruct (fields !! 3%nat); [|done].
  simpl. case_decide.
  - destruct (fields !! 4%nat); [|done]. simpl.
    destruct (last fields); [|done]. simpl. intros [= <-]. simpl.
    apply handle_parts_of_tags.
  - simpl. destruct (last fields); [|done]. simpl. intros [= <-]. simpl.
    by destruct config.
Qed.

Lemma parse_verse_body_resolved verse config (f : reader)
    (ws : list Word) (rest : reader) :
  parse_verse_body verse config f = Ok (ws, rest) ->
  Forall (word_resolved config) ws.
Proof.
  revert ws rest. induction f as [|raw f IH]; intros ws rest; simpl.
  - by intros [= <- <-].
  - destruct (is_skipped (strip raw)); [by apply IH|].
    destruct (truthy (strip raw)); simpl; [|by intros [= <- <-]].
    repeat case_decide.
    + destruct (parse_suffix verse _ config) as [w|] eqn:Hw; [|done]. simpl.
      destruct (parse_verse_body verse config f) as [[ws' rest']|]; [|done].
      simpl. intros [= <- <-]. constructor; [|by eapply IH].
      by eapply parse_suffix_resolved.
    + destruct (parse_word verse _ config) as [w|] eqn:Hw; [|done]. simpl.
      destruct (parse_verse_body verse config f) as [[ws' rest']|]; [|done].
      simpl. intros [= <- <-]. constructor; [|by eapply IH].
      by eapply parse_word_resolved.
    + by apply IH.
Qed.

Lemma parse_verse_resolved config (f : reader) (ws : list Word)
    (rest : reader) :
  parse_verse config f = Ok (ws, rest) -> Forall (word_resolved config) ws.
Proof.
  unfold parse_verse. destruct (readline f) as [raw f'].
  destruct (contains [TAB] (strip raw)); [done|].
  apply parse_verse_body_resolved.
Qed.

Lemma parse_file_loop_resolved (fuel : nat) config (f : reader)
    (ws : list Word) :
  parse_file_loop fuel config f = Ok ws -> Forall (word_resolved config) ws.
Proof.
  revert f ws. induction fuel as [|fuel IH]; intros f ws; [done|]. simpl.
  destruct (parse_verse config f) as [[ws1 rest]|] eqn:Hverse; [|done].
  simpl. apply parse_verse_resolved in Hverse.
  destruct (has_another_line rest).
  - destruct (parse_file_loop fuel config rest) as [ws2|] eqn:Hloop; [|done].
    simpl. intros [= <-]. apply Forall_app. split; [done|by eapply IH].
  - by intros [= <-].
Qed.

Lemma parse_files_resolved config (files : list reader) (ws : list Word) :
  parse_files config files = Ok ws -> Forall (word_resolved config) ws.
Proof.
  revert ws. induction files as [|f files IH]; intros ws; simpl.
  - by intros [= <-].
  - destruct (parse_file f config) as [ws1|] eqn:Hfile; [|done]. simpl.
    destruct (parse_files config files) as [ws2|]; [|done]. simpl.
    intros [= <-]. apply Forall_app. split; [|by apply IH].
    by eapply parse_file_loop_resolved.
Qed.

(** C5, as amended.  For every word parsed while a config is available and
    whose tags are present, the resolved parts are present, their keys are
    exactly the tag tokens, and each tag token maps to what
    [config.get(tag, tag)] returns: the tag itself when the tag is not the
    name of a category of the config, and that category's value set when it
    is. *)
Theorem resolved_parts (c : Config) (files : list reader)
    (words : list Word) (w : Word) (tags : list str) :
  parse_files (Some c) files = Ok words ->
  w ∈ words ->
  fts w = Some tags ->
  exists d,
    parts w = Some d /\
    (forall tag, tag ∈ dict_keys d <-> tag ∈ tags) /\
    (forall tag, tag ∈ tags ->
       dict_get tag d =
         Some (match dict_get tag c with
               | Some terms => PTerms terms
               | None => PTag tag
               end)).
Proof.
  intros Hparse Hw Htags.
  apply parse_files_resolved in Hparse.
  rewrite Forall_forall in Hparse. specialize (Hparse w Hw).
  unfold word_resolved in Hparse. rewrite Htags in Hparse. simpl in Hparse.
  eexists. split; [exact Hparse|]. split.
  - intros tag. rewrite parts_comprehension_keys.
    unfold dict_keys. simpl. rewrite elem_of_nil. tauto.
  - intros tag Htag. by apply parts_comprehension_get.
Qed.

Lemma resolved_parts_witness :
  exists d,
    parts resolved_word_example = Some d /\
    (forall tag, tag ∈ dict_keys d <-> tag ∈ [u "Suffix"; u "pronoun"]) /\
    (forall tag, tag ∈ [u "Suffix"; u "pronoun"] ->
       dict_get tag d =
         Some (match dict_get tag resolved_config_example with
               | Some terms => PTerms terms
               | None => PTag tag
               end)).
Proof.
  apply (resolved_parts resolved_config_example [resolved_file_example]
           [resolved_word_example] resolved_word_example
           [u "Suffix"; u "pronoun"]).
  - vm_compute. reflexivity.
  - apply list_elem_of_here.
  - reflexivity.
Defined.

(** C5, as stated, fails: when a tag is also the name of a category of the
    config, it is mapped to that category's value set, not to itself. *)
Lemma resolved_parts_identity_counterexample :
  let c : Config := [(u "Suffix", {[ u "pronominal" ]})] in
  read_config (Some [u "Suffix:pronominal"]) = Some c /\
  exists w d,
    parse_files (Some c) [resolved_file_example] = Ok [w] /\
    fts w = Some [u "Suffix"; u "pronoun"] /\
    parts w = Some d /\
    dict_get (u "Suffix") d = Some (PTerms {[ u "pronominal" ]}) /\
    dict_get (u "Suffix") d <> Some (PTag (u "Suffix")).
Proof.
  cbv zeta. split; [vm_compute; reflexivity|].
  eexists _, _. split; [vm_compute; reflexivity|].
  split; [reflexivity|]. split; [reflexivity|].
  split; [vm_compute; reflexivity|]. vm_compute. discriminate.
Qed.

(** ** ConfigStore: reading *)

Lemma read_config_line_None (ret : Config) (line : str) :
  read_config_line ret line = None <->
  count_occ N.eq_dec line COLON <> 1%nat.
Proof.
  unfold read_config_line.
  pose proof (length_split_on COLON line) as Hlen.
  destruct (split_on COLON line) as [|p0 [|p1 [|p2 l]]];
    simpl in Hlen; split; intros H; try done; try lia.
Qed.

Lemma read_config_lines_None (ret : Config) (lines : list str) :
  read_config_lines ret lines = None <->
  Exists (fun line => count_occ N.eq_dec line COLON <> 1%nat) lines.
Proof.
  revert ret. induction lines as [|line lines IH]; intros ret; simpl.
  - rewrite Exists_nil. split; [done|tauto].
  - rewrite Exists_cons.
    destruct (read_config_line ret line) as [ret'|] eqn:Hline.
    + rewrite IH. split; [tauto|]. intros [Hbad|Hrest]; [|done].
      apply (read_config_line_None ret) in Hbad. by rewrite Hbad in Hline.
    + apply read_config_line_None in Hline. tauto.
Qed.

(** C4, as amended.  Reading a config file that exists gives "no config"
    exactly when some line does not contain exactly one colon: the line is
    split at every colon, so a line without a colon and a line with two or
    more colons both raise the format error.  One such line anywhere fails
    the whole read; the lines parsed before it are not returned. *)
Theorem read_config_format_error (lines : list str) :
  read_config (Some lines) = None <->
  Exists (fun line => count_occ N.eq_dec line COLON <> 1%nat) lines.
Proof. apply read_config_lines_None. Qed.

Lemma read_config_format_error_witness :
  read_config (Some [u "pos: noun,verb" ++ [NL]; u "no colon here"]) = None.
Proof.
  apply (proj2 (read_config_format_error
                  [u "pos: noun,verb" ++ [NL]; u "no colon here"])).
  apply Exists_cons_tl, Exists_cons_hd. vm_compute. discriminate.
Defined.

(** C4, as stated, fails: a line with two colons does split into two parts
    at its first colon, and still raises the format error. *)
Lemma read_config_first_colon_counterexample :
  let line := u "other: 3:16" in
  split_first COLON line = [u "other"; u " 3:16"] /\
  length (split_on COLON line) = 3%nat /\
  read_config (Some [line]) = None.
Proof. cbv zeta. repeat split; vm_compute; reflexivity. Qed.




(** ** The tab assertion on verse identifiers (C7) *)

Lemma parse_verse_body_block verse config (body : list str) (blank : str)
    (rest : reader) :
  Forall (fun l => strip l <> []) body ->
  strip blank = [] ->
  exists ws, parse_verse_body verse config (body ++ blank :: rest) = Ok (ws, rest).
Proof.
  intros Hbody Hblank. induction Hbody as [|raw body Hraw _ [ws IH]]; simpl.
  - rewrite Hblank. simpl. eauto.
  - destruct (is_skipped (strip raw)); [by eauto|].
    assert (truthy (strip raw) = true) as ->
      by (by destruct (strip raw)).
    simpl. repeat case_decide.
    + destruct (parse_suffix_ok verse config (split_on TAB (strip raw)))
        as [w ->]; [done|]. rewrite IH. simpl. eauto.
    + destruct (parse_word_ok verse config (split_on TAB (strip raw)))
        as [w ->]; [done|]. rewrite IH. simpl. eauto.
    + eauto.
Qed.

Lemma contains_tab_truthy (line : str) :
  contains [TAB] (strip line) = true -> truthy line = true.
Proof. by destruct line. Qed.

Lemma verse_blocks_more (pre : reader) (line : str) (rest : reader) :
  verse_blocks pre -> truthy line = true ->
  has_another_line (pre ++ line :: rest) = true.
Proof. intros [|ident body blank pre' Hident _ _ _] Hline; done. Qed.

Lemma parse_file_loop_tab (fuel : nat) config (pre : reader) (line : str)
    (rest : reader) :
  verse_blocks pre ->
  contains [TAB] (strip line) = true ->
  (length (pre ++ line :: rest) < fuel)%nat ->
  parse_file_loop fuel config (pre ++ line :: rest) = Raise AssertionError.
Proof.
  intros Hpre Htab. revert fuel.
  induction Hpre as [|ident body blank pre Hident Hbody Hblank Hpre IH];
    intros [|fuel] Hfuel; simpl in Hfuel; try lia; simpl.
  - unfold parse_verse. simpl. by rewrite Htab.
  - unfold parse_verse. simpl.
    destruct (contains [TAB] (strip ident)); [done|].
    rewrite <- app_assoc. simpl.
    destruct (parse_verse_body_block (strip ident) config body blank
                (pre ++ line :: rest)) as [ws ->]; [done..|].
    simpl. rewrite verse_blocks_more by eauto using contains_tab_truthy.
    rewrite IH; [done|]. rewrite length_app in Hfuel |- *.
    rewrite length_app in Hfuel. simpl in Hfuel |- *. lia.
Qed.

Lemma parse_files_raise config (files : list reader) (f : reader) :
  f ∈ files ->
  parse_file f config = Raise AssertionError ->
  parse_files config files = Raise AssertionError.
Proof.
  intros Hin Hf. induction files as [|f' files IH]; simpl.
  - by apply elem_of_nil in Hin.
  - destruct (parse_file_total f' config) as [->|[ws Hws]]; [done|].
    apply elem_of_cons in Hin as [->|Hin]; [congruence|].
    rewrite Hws. simpl. by rewrite IH.
Qed.

(** C7, as amended.  [parse_verse] strips the identifier line before it
    looks for a tab.  So: for every run, whatever the config file, if some
    input file has a line in verse-identifier position (it follows complete
    verse blocks) that still contains a tab once stripped of surrounding
    whitespace, the run ends with the assertion error, and nothing is
    written. *)
Theorem tab_in_verse_identifier set_iter lower
    (configfile : option (list str)) (files : list reader)
    (pre : reader) (line : str) (rest : reader) :
  pre ++ line :: rest ∈ files ->
  verse_blocks pre ->
  contains [TAB] (strip line) = true ->
  parse_file (pre ++ line :: rest) (read_config configfile) =
    Raise AssertionError /\
  main set_iter lower configfile files = Raise AssertionError.
Proof.
  intros Hin Hpre Htab.
  assert (parse_file (pre ++ line :: rest) (read_config configfile) =
            Raise AssertionError) as Hfile.
  { apply parse_file_loop_tab; [done..|lia]. }
  split; [done|]. unfold main.
  by rewrite (parse_files_raise _ _ _ Hin Hfile).
Qed.

Lemma tab_in_verse_identifier_witness :
  parse_file tab_ident_file_example (read_config None) =
    Raise AssertionError /\
  main elements ascii_lower None [tab_ident_file_example] =
    Raise AssertionError.
Proof.
  apply (tab_in_verse_identifier elements ascii_lower None
           [tab_ident_file_example]
           [u "Gen.1.1" ++ [NL]; suffix_line_example; [NL]]
           (u "Gen" ++ [TAB] ++ u "1.2" ++ [NL])
           [suffix_line_example]).
  - apply list_elem_of_here.
  - apply (verse_blocks_cons (u "Gen.1.1" ++ [NL]) [suffix_line_example]
             [NL] []).
    + reflexivity.
    + constructor; [|constructor]. vm_compute. discriminate.
    + vm_compute. reflexivity.
    + constructor.
  - vm_compute. reflexivity.
Defined.

(** C7, as stated, fails: a tab at the end (or at the start) of the
    identifier line is stripped before the assertion; the line is accepted
    as the identifier of the verse and the run goes on. *)
Lemma tab_in_verse_identifier_counterexample :
  let ident := u "Gen.1.1" ++ [TAB; NL] in
  contains [TAB] ident = true /\
  exists w text,
    parse_file [ident; suffix_line_example] None = Ok [w] /\
    verse_id w = u "Gen.1.1" /\
    main elements ascii_lower None [[ident; suffix_line_example]] =
      Ok (ConfigWritten text).
Proof.
  cbv zeta. split; [vm_compute; reflexivity|].
  eexists _, _. split; [vm_compute; reflexivity|].
  split; [reflexivity|]. vm_compute. reflexivity.
Qed.

(** ** Sorting and removal *)

Lemma str_le_total (a b : str) : str_le a b = true \/ str_le b a = true.
Proof.
  revert b. induction a as [|x a IH]; intros [|y b]; simpl; auto.
  destruct (N.ltb_spec x y), (N.ltb_spec y x); simpl; auto; try lia.
  assert (x = y) as -> by lia. rewrite N.eqb_refl. simpl. apply IH.
Qed.

Lemma str_le_trans (a b c : str) :
  str_le a b = true -> str_le b c = true -> str_le a c = true.
Proof.
  revert b c. induction a as [|x a IH]; intros [|y b] [|z c]; simpl; try done.
  destruct (N.ltb_spec x y), (N.ltb_spec y z), (N.ltb_spec x z);
    simpl; try done; try lia.
  - destruct (N.eqb_spec y z); [lia|done].
  - destruct (N.eqb_spec x y); [lia|done].
  - destruct (N.eqb_spec x y), (N.eqb_spec y z), (N.eqb_spec x z);
      simpl; try done; try lia. apply IH.
Qed.

Section Sorting.

Variable key : str -> str.

Lemma insert_by_elem (x y : str) (l : list str) :
  y ∈ insert_by key x l <-> y = x \/ y ∈ l.
Proof.
  induction l as [|z l IH]; simpl.
  - rewrite list_elem_of_singleton, elem_of_nil. tauto.
  - destruct (str_le (key x) (key z)).
    + by rewrite elem_of_cons.
    + rewrite !elem_of_cons, IH. tauto.
Qed.

Lemma insert_by_NoDup (x : str) (l : list str) :
  x ∉ l -> NoDup l -> NoDup (insert_by key x l).
Proof.
  induction l as [|z l IH]; simpl; intros Hx Hl.
  - apply NoDup_singleton.
  - destruct (str_le (key x) (key z)); [by constructor|].
    apply not_elem_of_cons in Hx as [Hne Hx].
    apply NoDup_cons in Hl as [Hz Hl]. constructor; [|by apply IH].
    rewrite insert_by_elem. intros [->|?]; done.
Qed.

Lemma insert_by_sorted (x : str) (l : list str) :
  StronglySorted (key_le key) l -> StronglySorted (key_le key) (insert_by key x l).
Proof.
  induction l as [|z l IH]; simpl; intros Hl.
  - repeat constructor.
  - apply StronglySorted_cons in Hl as [Hz Hl].
    destruct (str_le (key x) (key z)) eqn:Hxz.
    + apply StronglySorted_cons. split; [|by apply StronglySorted_cons].
      constructor; [done|]. eapply Forall_impl; [exact Hz|].
      intros y Hzy. unfold key_le in *. by eapply str_le_trans.
    + apply StronglySorted_cons. split; [|by apply IH].
      apply Forall_forall. intros y [->|Hy]%insert_by_elem.
      * destruct (str_le_total (key x) (key z)); [congruence|done].
      * rewrite Forall_forall in Hz. by apply Hz.
Qed.

Lemma sorted_elem (y : str) (l : list str) : y ∈ sorted key l <-> y ∈ l.
Proof.
  induction l as [|x l IH]; simpl; [done|].
  rewrite insert_by_elem, elem_of_cons, IH. tauto.
Qed.

Lemma sorted_NoDup (l : list str) : NoDup l -> NoDup (sorted key l).
Proof.
  induction l as [|x l IH]; simpl; intros Hl; [constructor|].
  apply NoDup_cons in Hl as [Hx Hl].
  apply insert_by_NoDup; [by rewrite sorted_elem|by apply IH].
Qed.

Lemma sorted_sorted (l : list str) : StronglySorted (key_le key) (sorted key l).
Proof.
  induction l as [|x l IH]; simpl; [constructor|]. by apply insert_by_sorted.
Qed.

Lemma remove_first_elem (x y : str) (l : list str) :
  NoDup l -> y ∈ remove_first x l <-> y ∈ l /\ y <> x.
Proof.
  induction l as [|z l IH]; simpl; intros Hl.
  - rewrite elem_of_nil. tauto.
  - apply NoDup_cons in Hl as [Hz Hl]. destruct (decide (x = z)) as [->|Hne].
    + rewrite elem_of_cons. split; [|tauto].
      intros Hy. split; [tauto|]. by intros ->.
    + rewrite !elem_of_cons, IH by done. split; [|tauto].
      intros [->|?]; [split; [tauto|congruence]|tauto].
Qed.

Lemma remove_first_NoDup (x : str) (l : list str) :
  NoDup l -> NoDup (remove_first x l).
Proof.
  induction l as [|z l IH]; simpl; intros Hl; [done|].
  pose proof Hl as Hl'. apply NoDup_cons in Hl as [Hz Hl].
  destruct (decide (x = z)); [done|]. constructor; [|by apply IH].
  rewrite remove_first_elem by done. tauto.
Qed.

Lemma remove_first_sorted (x : str) (l : list str) :
  NoDup l -> StronglySorted (key_le key) l ->
  StronglySorted (key_le key) (remove_first x l).
Proof.
  induction l as [|z l IH]; simpl; intros Hnd Hl; [done|].
  apply NoDup_cons in Hnd as [Hz Hnd].
  apply StronglySorted_cons in Hl as [Hzl Hl].
  destruct (decide (x = z)); [done|].
  apply StronglySorted_cons. split; [|by apply IH].
  apply Forall_forall. intros y Hy%remove_first_elem; [|done].
  rewrite Forall_forall in Hzl. apply Hzl. tauto.
Qed.

(** After the removal loop over [features], what is left of a
    duplicate-free sorted list is what was not in [features], still sorted. *)
Lemma remove_features (features : list str) (l : list str) :
  NoDup l -> StronglySorted (key_le key) l ->
  NoDup (foldl remove_if_in l features) /\
  StronglySorted (key_le key) (foldl remove_if_in l features) /\
  forall y, y ∈ foldl remove_if_in l features <-> y ∈ l /\ y ∉ features.
Proof.
  revert l. induction features as [|x features IH]; intros l Hnd Hl; simpl.
  - split; [done|]. split; [done|]. intros y. rewrite elem_of_nil. tauto.
  - assert (NoDup (remove_if_in l x) /\
            StronglySorted (key_le key) (remove_if_in l x) /\
            forall y, y ∈ remove_if_in l x <-> y ∈ l /\ y <> x)
      as (Hnd' & Hl' & Hel).
    { unfold remove_if_in. case_decide.
      - split; [by apply remove_first_NoDup|].
        split; [by apply remove_first_sorted|].
        intros y. by apply remove_first_elem.
      - split; [done|]. split; [done|]. intros y. split; [|tauto].
        intros Hy. split; [done|]. by intros ->. }
    destruct (IH _ Hnd' Hl') as (Hnd'' & Hl'' & Hel'').
    split; [done|]. split; [done|]. intros y.
    rewrite Hel'', Hel, not_elem_of_cons. tauto.
Qed.

End Sorting.

(** ** ConfigStore: writing (C9) *)

Lemma write_config_category_snd (st : str * list str)
    (defaults : dict (list str)) :
  snd (foldl write_config_category st defaults) =
    foldl remove_if_in (snd st) (concat (map snd defaults)).
Proof.
  revert st. induction defaults as [|entry defaults IH]; intros st; [done|].
  simpl. by rewrite IH, foldl_app.
Qed.

Lemma write_config_category_fst (st : str * list str)
    (defaults : dict (list str)) :
  fst (foldl write_config_category st defaults) =
    fst st ++ fst (foldl write_config_category ([], []) defaults).
Proof.
  revert st. induction defaults as [|entry defaults IH]; intros st; simpl.
  - by rewrite app_nil_r.
  - rewrite IH. rewrite (IH (write_config_category ([], []) entry)).
    simpl. by rewrite <- app_assoc.
Qed.

Lemma elem_of_concat_snd (t : str) (defaults : dict (list str)) :
  t ∈ concat (map snd defaults) <->
  exists entry, entry ∈ defaults /\ t ∈ snd entry.
Proof.
  induction defaults as [|entry defaults IH]; simpl.
  - rewrite elem_of_nil. split; [done|]. by intros (? & ?%elem_of_nil & _).
  - rewrite elem_of_app, IH. split.
    + intros [Ht|(e & He & Ht)]; [exists entry|exists e];
        rewrite elem_of_cons; tauto.
    + intros (e & [->|He]%elem_of_cons & Ht); [tauto|]. right. eauto.
Qed.

Lemma observed_parts_fold (words : list Word) (acc : gset str) (t : str) :
  t ∈ foldl (fun acc word =>
               match fts word with
               | Some (t :: ts) => acc ∪ list_to_set (t :: ts)
               | _ => acc
               end) acc words <->
  t ∈ acc \/ exists w tags, w ∈ words /\ fts w = Some tags /\ t ∈ tags.
Proof.
  revert acc. induction words as [|w words IH]; intros acc; simpl.
  - split; [tauto|]. intros [?|(? & ? & ?%elem_of_nil & _)]; done.
  - rewrite IH. split.
    + intros [Hacc|(w' & tags & Hw' & Htags & Ht)].
      * destruct (fts w) as [[|t0 ts]|] eqn:Hfts; [tauto| |tauto].
        apply elem_of_union in Hacc as [?|Ht]; [tauto|].
        apply (elem_of_list_to_set (C:=gset str) t (t0 :: ts)) in Ht.
        right. exists w, (t0 :: ts).
        rewrite elem_of_cons. tauto.
      * right. exists w', tags. rewrite elem_of_cons. tauto.
    + intros [Hacc|(w' & tags & [->|Hw']%elem_of_cons & Htags & Ht)].
      * left. destruct (fts w) as [[|t0 ts]|]; [done| |done].
        apply elem_of_union. tauto.
      * left. rewrite Htags. destruct tags as [|t0 ts].
        { by apply elem_of_nil in Ht. }
        apply elem_of_union. right.
        exact (proj2 (elem_of_list_to_set (C:=gset str) t (t0 :: ts)) Ht).
      * right. eauto.
Qed.

Lemma observed_parts_elem (words : list Word) (t : str) :
  t ∈ observed_parts words <->
  exists w tags, w ∈ words /\ fts w = Some tags /\ t ∈ tags.
Proof.
  unfold observed_parts. rewrite observed_parts_fold.
  split; [|tauto]. intros [Ht|?]; [|done]. by apply elem_of_empty in Ht.
Qed.

Lemma write_config_text set_iter lower (words : list Word) :
  write_config set_iter lower words =
    default_lines ++
    match other_parts set_iter lower words with
    | [] => []
    | _ :: _ =>
        u "other: " ++ join (u ", ") (other_parts set_iter lower words)
    end.
Proof.
  unfold write_config, other_parts, default_lines.
  rewrite write_config_category_fst.
  change (fst ([], sorted lower (set_iter (observed_parts words))))
    with (@nil N).
  generalize (snd (foldl write_config_category
                     ([], sorted lower (set_iter (observed_parts words)))
                     DEFAULT_PARTS)).
  generalize (fst (foldl write_config_category ([], []) DEFAULT_PARTS)).
  intros text [|t other]; cbn [truthy app]; [by rewrite app_nil_r|done].
Qed.

Lemma other_parts_spec (set_iter : gset str -> list str)
    (lower : str -> str) (defaults : dict (list str))
    (observed : gset str) :
  (forall s : gset str, set_iter s ≡ₚ elements s) ->
  let other :=
    snd (foldl write_config_category
           ([], sorted lower (set_iter observed)) defaults) in
  (forall t, t ∈ other <->
     t ∈ observed /\ forall entry, entry ∈ defaults -> t ∉ snd entry) /\
  NoDup other /\ StronglySorted (key_le lower) other.
Proof.
  intros Hiter other. unfold other. clear other.
  rewrite write_config_category_snd. cbn [snd].
  assert (NoDup (sorted lower (set_iter observed))) as Hnd.
  { apply sorted_NoDup. rewrite Hiter. apply NoDup_elements. }
  destruct (remove_features lower (concat (map snd defaults)) _ Hnd
              (sorted_sorted lower _)) as (Hnd' & Hsorted & Hel).
  split; [|done]. intros t.
  rewrite Hel, sorted_elem, Hiter, elem_of_elements, elem_of_concat_snd.
  split.
  - intros [Hobs Hno]. split; [done|]. intros entry He Ht. apply Hno. eauto.
  - intros [Hobs Hno]. split; [done|]. intros (entry & He & Ht).
    by apply (Hno entry).
Qed.

(** C9.  Whatever the order in which the set of observed tags is iterated,
    the values left for the final ["other:"] line are exactly the tag
    values observed in the corpus that no built-in vocabulary contains,
    each once, sorted by their lower-cased form; the text written is the
    built-in lines followed by ["other: "] and these values joined by
    [", "], or by nothing at all when there is no such value. *)
Theorem other_line set_iter lower (words : list Word) :
  (forall s : gset str, set_iter s ≡ₚ elements s) ->
  (forall t,
     t ∈ other_parts set_iter lower words <->
     (exists w tags, w ∈ words /\ fts w = Some tags /\ t ∈ tags) /\
     (forall entry, entry ∈ DEFAULT_PARTS -> t ∉ snd entry)) /\
  NoDup (other_parts set_iter lower words) /\
  StronglySorted (key_le lower) (other_parts set_iter lower words) /\
  write_config set_iter lower words =
    default_lines ++
    match other_parts set_iter lower words with
    | [] => []
    | _ :: _ =>
        u "other: " ++ join (u ", ") (other_parts set_iter lower words)
    end.
Proof.
  intros Hiter.
  destruct (other_parts_spec set_iter lower DEFAULT_PARTS
              (observed_parts words) Hiter) as (Hel & Hnd & Hsorted).
  split; [|split; [exact Hnd|split; [exact Hsorted|]]].
  - intros t. unfold other_parts. rewrite Hel.
    by rewrite observed_parts_elem.
  - apply write_config_text.
Qed.

Lemma other_line_witness :
  (forall t,
     t ∈ other_parts elements ascii_lower [hiphil_word_example] <->
     (exists w tags,
        w ∈ [hiphil_word_example] /\ fts w = Some tags /\ t ∈ tags) /\
     (forall entry, entry ∈ DEFAULT_PARTS -> t ∉ snd entry)) /\
  NoDup (other_parts elements ascii_lower [hiphil_word_example]) /\
  StronglySorted (key_le ascii_lower)
    (other_parts elements ascii_lower [hiphil_word_example]) /\
  write_config elements ascii_lower [hiphil_word_example] =
    default_lines ++
    match other_parts elements ascii_lower [hiphil_word_example] with
    | [] => []
    | _ :: _ =>
        u "other: " ++
        join (u ", ") (other_parts elements ascii_lower [hiphil_word_example])
    end.
Proof.
  apply (other_line elements ascii_lower [hiphil_word_example]).
  intros s. reflexivity.
Defined.

(** The example of the specification: the observed tag ["Hiphil"] is in no
    built-in vocabulary (the binyan list has ["hifil"]), so it is written on
    the ["other:"] line, after ["absolute"] although [H] comes before [a]
    in code point order; the observed ["Verb"] and ["perfect"] are claimed
    by the built-in categories and are not repeated. *)
Lemma hiphil_on_other_line :
  other_parts elements ascii_lower [hiphil_word_example] =
    [u "absolute"; u "Hiphil"] /\
  write_config elements ascii_lower [hiphil_word_example] =
    default_lines ++ u "other: absolute, Hiphil".
Proof. split; vm_compute; reflexivity. Qed.

(** With no observed tag outside the built-in vocabularies there is no
    ["other:"] line. *)
Lemma no_other_line_when_all_claimed :
  write_config elements ascii_lower [] = default_lines /\
  write_config elements ascii_lower
    [{| verse_id := u "Gen.1.1"; form := u "bara";
        transliterated_form := u "bara";
        fts := Some [u "Verb"; u "qal"; u "perfect"]; parts := None;
        lemma := None; transliterated_lemma := None;
        translation := None |}] = default_lines.
Proof. split; vm_compute; reflexivity. Qed.

(** ** TableWriter: the category columns (C6) *)

Lemma dict_set_NoDup {V} (k : str) (v : V) (d : dict V) :
  NoDup (dict_keys d) -> NoDup (dict_keys (dict_set k v d)).
Proof.
  unfold dict_keys. induction d as [|[k' v'] d IH]; simpl; intros Hd.
  - apply NoDup_singleton.
  - apply NoDup_cons in Hd as [Hk' Hd].
    destruct (decide (k = k')) as [->|Hne]; simpl.
    + by constructor.
    + constructor; [|by apply IH].
      intros [?|?]%(dict_keys_set k k' v d); [congruence|done].
Qed.

Lemma read_config_line_wf (ret ret' : Config) (line : str) :
  config_wf ret -> read_config_line ret line = Some ret' -> config_wf ret'.
Proof.
  intros [Hnd Hterms]. unfold read_config_line.
  destruct (split_on COLON line) as [|p0 [|p1 [|p2 l]]]; try done.
  intros [= <-]. split; [by apply dict_set_NoDup|].
  intros title terms t.
  destruct (decide (strip p0 = title)) as [<-|Hne].
  - rewrite dict_get_set_eq. intros [= <-] Ht%elem_of_list_to_set.
    pose proof (split_on_no_sep COMMA p1) as Hsep.
    rewrite Forall_forall in Hsep. by apply Hsep.
  - rewrite dict_get_set_ne by done. apply Hterms.
Qed.

Lemma read_config_lines_wf (ret c : Config) (lines : list str) :
  config_wf ret -> read_config_lines ret lines = Some c -> config_wf c.
Proof.
  revert ret. induction lines as [|line lines IH]; intros ret Hret; simpl.
  - by intros [= <-].
  - destruct (read_config_line ret line) as [ret'|] eqn:Hline; [|done].
    apply IH. by eapply read_config_line_wf.
Qed.

Lemma read_config_wf (lines : list str) (c : Config) :
  read_config (Some lines) = Some c -> config_wf c.
Proof.
  apply read_config_lines_wf. split; [constructor|done].
Qed.

Lemma tokens_of_join (l : list str) :
  Forall (fun x => COMMA ∉ x) l ->
  forall t, t ∈ tokens_of (join [COMMA] l) -> t ∈ l.
Proof.
  intros Hl t. unfold tokens_of.
  destruct (truthy (join [COMMA] l)) eqn:Hjoin; [|by intros ?%elem_of_nil].
  destruct l as [|x l]; [done|]. by rewrite split_on_join.
Qed.

Lemma met_terms_resolved (c : Config) (terms met : gset str) (w : Word) :
  word_resolved (Some c) w ->
  met_terms terms w = Some met ->
  exists tags,
    fts w = Some tags /\ forall t, t ∈ met <-> t ∈ terms /\ t ∈ tags.
Proof.
  unfold word_resolved, met_terms. intros ->.
  destruct (fts w) as [tags|]; simpl; [|done].
  assert (forall t,
            t ∈ (list_to_set (dict_keys (parts_comprehension c tags []))
                 : gset str) <-> t ∈ tags) as Hkeys.
  { intros t. rewrite elem_of_list_to_set, parts_comprehension_keys.
    unfold dict_keys. simpl. rewrite elem_of_nil. tauto. }
  destruct (parts_comprehension c tags []) as [|p ps]; [done|].
  intros [= <-]. exists tags. split; [done|]. intros t. split.
  - intros [Ht1 Ht2]%elem_of_intersection. split; [done|]. by apply Hkeys.
  - intros [Ht1 Ht2]. apply elem_of_intersection. split; [done|].
    by apply Hkeys.
Qed.

Section CategoryCell.

Variable set_iter : gset str -> list str.
Hypothesis set_iter_perm : forall s : gset str, set_iter s ≡ₚ elements s.

Lemma category_cell_tokens (c : Config) (terms : gset str) (w : Word)
    (t : str) :
  word_resolved (Some c) w ->
  (forall x, x ∈ terms -> COMMA ∉ x) ->
  t ∈ tokens_of (category_cell set_iter terms w) ->
  t ∈ terms /\ exists tags, fts w = Some tags /\ t ∈ tags.
Proof.
  intros Hw Hterms. unfold category_cell.
  destruct (met_terms terms w) as [met|] eqn:Hmet;
    [|by intros ?%elem_of_nil].
  destruct (met_terms_resolved c terms met w Hw Hmet) as (tags & Htags & Hel).
  case_decide; [by intros ?%elem_of_nil|].
  change (u ",") with [COMMA]. intros Ht%tokens_of_join.
  - rewrite set_iter_perm in Ht. apply elem_of_elements, Hel in Ht.
    split; [tauto|]. exists tags. tauto.
  - apply Forall_forall. intros x Hx. rewrite set_iter_perm in Hx.
    apply elem_of_elements, Hel in Hx. apply Hterms. tauto.
Qed.

Lemma category_cell_empty (c : Config) (terms : gset str) (w : Word) :
  word_resolved (Some c) w ->
  (forall t tags, t ∈ terms -> fts w = Some tags -> t ∉ tags) ->
  category_cell set_iter terms w = [].
Proof.
  intros Hw Hdisjoint. unfold category_cell.
  destruct (met_terms terms w) as [met|] eqn:Hmet; [|done].
  destruct (met_terms_resolved c terms met w Hw Hmet) as (tags & Htags & Hel).
  rewrite decide_True; [done|].
  apply set_eq. intros t. split; [|by intros ?%elem_of_empty].
  intros [Ht1 Ht2]%Hel. by destruct (Hdisjoint t tags).
Qed.

End CategoryCell.

(** C6.  In table mode, the rows written are the rows of the parsed words,
    in order; in every row and for every category of the config, the cell of
    the category is present (a string, not [None]), each of its
    comma-separated tokens is one of the word's raw tags and one of the
    values declared for the category, and the cell is the empty string when
    no declared value is a tag of the word. *)
Theorem category_columns (set_iter : gset str -> list str)
    (lower : str -> str) (lines : list str) (files : list reader)
    (c : Config) (fieldnames : list str) (rows : list (dict (option str))) :
  (forall s : gset str, set_iter s ≡ₚ elements s) ->
  read_config (Some lines) = Some c ->
  main set_iter lower (Some lines) files = Ok (CsvWritten fieldnames rows) ->
  exists words,
    parse_files (Some c) files = Ok words /\
    rows = map (csv_row set_iter c) words /\
    forall w title terms,
      w ∈ words ->
      dict_get title c = Some terms ->
      exists cell,
        dict_get title (csv_row set_iter c w) = Some (Some cell) /\
        (forall t, t ∈ tokens_of cell ->
           t ∈ terms /\ exists tags, fts w = Some tags /\ t ∈ tags) /\
        ((forall t tags, t ∈ terms -> fts w = Some tags -> t ∉ tags) ->
         cell = []).
Proof.
  intros Hiter Hconfig Hmain. unfold main in Hmain. rewrite Hconfig in Hmain.
  destruct (parse_files (Some c) files) as [words|] eqn:Hparse; [|done].
  simpl in Hmain. unfold write_csv in Hmain.
  destruct (last (map (csv_row set_iter c) words)); [|done].
  simpl in Hmain. injection Hmain as _ <-.
  exists words. split; [done|]. split; [done|].
  intros w title terms Hw Htitle.
  destruct (read_config_wf lines c Hconfig) as [Hnd Hcomma].
  apply parse_files_resolved in Hparse. rewrite Forall_forall in Hparse.
  exists (category_cell set_iter terms w). split; [|split].
  - unfold csv_row.
    by rewrite (dict_get_foldl_set
                  (fun terms => Some (category_cell set_iter terms w))
                  title terms).
  - intros t. apply (category_cell_tokens set_iter Hiter c); [by apply Hparse|].
    intros x. by apply (Hcomma title).
  - apply (category_cell_empty set_iter c). by apply Hparse.
Qed.

Lemma category_columns_witness :
  exists words,
    parse_files (Some csv_config_example) [resolved_file_example] = Ok words /\
    map (csv_row elements csv_config_example) [csv_word_example] =
      map (csv_row elements csv_config_example) words /\
    forall w title terms,
      w ∈ words ->
      dict_get title csv_config_example = Some terms ->
      exists cell,
        dict_get title (csv_row elements csv_config_example w) =
          Some (Some cell) /\
        (forall t, t ∈ tokens_of cell ->
           t ∈ terms /\ exists tags, fts w = Some tags /\ t ∈ tags) /\
        ((forall t tags, t ∈ terms -> fts w = Some tags -> t ∉ tags) ->
         cell = []).
Proof.
  apply (category_columns elements ascii_lower csv_config_lines_example
           [resolved_file_example] csv_config_example
           (dict_keys (csv_row elements csv_config_example csv_word_example))
           (map (csv_row elements csv_config_example) [csv_word_example])).
  - intros s. reflexivity.
  - vm_compute. reflexivity.
  - vm_compute. reflexivity.
Defined.

(** The row of the example word: the [pos] cell holds the one declared value
    that is a tag of the word. *)
Lemma example_row_pos_cell :
  parse_files (Some csv_config_example) [resolved_file_example] =
    Ok [csv_word_example] /\
  dict_get (u "pos") (csv_row elements csv_config_example csv_word_example) =
    Some (Some (u "Suffix")).
Proof. split; vm_compute; reflexivity. Qed.

(** ** Two runs on the same corpus (C1) *)

(** With at least one word, [write_csv] returns one row per word. *)
Lemma write_csv_rows (set_iter : gset str -> list str) (words : list Word)
    (c : Config) :
  words <> [] ->
  exists fieldnames,
    write_csv set_iter words c =
      Ok (fieldnames, map (csv_row set_iter c) words) /\
    length (map (csv_row set_iter c) words) = length words.
Proof.
  intros Hwords. unfold write_csv.
  destruct (last (map (csv_row set_iter c) words)) as [w|] eqn:Hlast.
  - eexists. split; [done|]. apply length_map.
  - apply last_None in Hlast. by destruct words.
Qed.

Lemma write_csv_no_words (set_iter : gset str -> list str) (c : Config) :
  write_csv set_iter [] c = Raise UnboundLocalError.
Proof. reflexivity. Qed.

(** C1.  The claim does not hold on the code for a corpus that yields no
    word: the first run writes the built-in config lines, the second run
    reads them back as a valid config, enters table mode, and [write_csv]
    fails on the name [w], which is bound only inside the loop over the
    words.  This holds for a directory without input files and for an input
    file without data lines. *)
Theorem empty_corpus_table_mode :
  (forall (set_iter : gset str -> list str) (c : Config),
     write_csv set_iter [] c = Raise UnboundLocalError) /\
  main elements ascii_lower None [] = Ok (ConfigWritten default_lines) /\
  is_Some (read_config (Some (readlines default_lines))) /\
  run_twice elements ascii_lower [] = Raise UnboundLocalError /\
  run_twice elements ascii_lower [[u "Gen.1.1" ++ [NL]; [NL]]] =
    Raise UnboundLocalError.
Proof.
  split; [intros; reflexivity|].
  split; [vm_compute; reflexivity|].
  split.
  { assert ((if read_config (Some (readlines default_lines)) is Some _
             then true else false) = true) as Hread
      by (vm_compute; reflexivity).
    by destruct (read_config (Some (readlines default_lines))). }
  split; vm_compute; reflexivity.
Qed.

(** * Further properties of the code *)

(** ** Invariants of the words that the parser returns *)

Lemma split_on_elem (c : N) (s x : str) (d : N) :
  x ∈ split_on c s -> d ∈ x -> d ∈ s.
Proof.
  revert x. induction s as [|a s IH]; intros x; simpl.
  - intros ->%list_elem_of_singleton Hd. by apply elem_of_nil in Hd.
  - destruct (a =? c).
    + intros [->|Hx]%elem_of_cons Hd; [by apply elem_of_nil in Hd|].
      apply elem_of_cons. right. by apply (IH x).
    + destruct (split_on c s) as [|h t] eqn:Hsplit.
      * intros ->%list_elem_of_singleton Hd. apply elem_of_cons. left.
        by apply list_elem_of_singleton in Hd.
      * intros [->|Hx]%elem_of_cons Hd.
        -- apply elem_of_cons in Hd as [->|Hd]; apply elem_of_cons;
             [by left|right]. apply (IH h); [apply list_elem_of_here|done].
        -- apply elem_of_cons. right. apply (IH x); [|done].
           by apply list_elem_of_further.
Qed.

Section ParserInvariant.

Variable config : ConfigType.

(** A property of a word and of the identifier of its verse. *)
Variable P : str -> Word -> Prop.

(** [P] holds of what a non-blank stripped line yields. *)
Hypothesis P_suffix : forall verse raw w,
  truthy (strip raw) = true ->
  length (split_on TAB (strip raw)) = 3%nat ->
  parse_suffix verse (split_on TAB (strip raw)) config = Ok w -> P verse w.

Hypothesis P_word : forall verse raw w,
  truthy (strip raw) = true ->
  length (split_on TAB (strip raw)) = 5%nat \/
  length (split_on TAB (strip raw)) = 6%nat ->
  parse_word verse (split_on TAB (strip raw)) config = Ok w -> P verse w.

Lemma parse_verse_body_inv verse (f : reader) (ws : list Word)
    (rest : reader) :
  parse_verse_body verse config f = Ok (ws, rest) ->
  Forall (P verse) ws /\
  (exists pre, f = pre ++ rest) /\
  (length ws + length rest <= length f)%nat.
Proof.
  revert ws rest. induction f as [|raw f IH]; intros ws rest; simpl.
  - intros [= <- <-]. split; [constructor|]. split; [by exists []|simpl; lia].
  - assert (forall ws' rest',
              Forall (P verse) ws' /\ (exists pre, f = pre ++ rest') /\
              (length ws' + length rest' <= length f)%nat ->
              Forall (P verse) ws' /\
              (exists pre, raw :: f = pre ++ rest') /\
              (length ws' + length rest' <= S (length f))%nat) as Hskip.
    { intros ws' rest' (HP & [pre ->] & Hlen).
      split; [done|]. split; [by exists (raw :: pre)|lia]. }
    destruct (is_skipped (strip raw)); [by intros ?%IH%Hskip|].
    destruct (truthy (strip raw)) eqn:Htruthy; simpl.
    2:{ intros [= <- <-]. split; [constructor|].
        split; [by exists [raw]|simpl; lia]. }
    repeat case_decide.
    + destruct (parse_suffix verse _ config) as [w|] eqn:Hw; [|done]. simpl.
      destruct (parse_verse_body verse config f) as [[ws' rest']|]; [|done].
      simpl. intros [= <- <-].
      destruct (IH ws' rest' eq_refl) as (HP & [pre ->] & Hlen).
      split; [constructor; eauto|].
      split; [by exists (raw :: pre)|simpl; lia].
    + destruct (parse_word verse _ config) as [w|] eqn:Hw; [|done]. simpl.
      destruct (parse_verse_body verse config f) as [[ws' rest']|]; [|done].
      simpl. intros [= <- <-].
      destruct (IH ws' rest' eq_refl) as (HP & [pre ->] & Hlen).
      split; [constructor; eauto|].
      split; [by exists (raw :: pre)|simpl; lia].
    + by intros ?%IH%Hskip.
Qed.

Lemma parse_verse_inv (f : reader) (ws : list Word) (rest : reader) :
  parse_verse config f = Ok (ws, rest) ->
  match f with
  | [] => ws = [] /\ rest = []
  | raw :: f' =>
      contains [TAB] (strip raw) = false /\
      Forall (P (strip raw)) ws /\
      (exists pre, f = pre ++ rest) /\
      (length ws + length rest < length f)%nat
  end.
Proof.
  unfold parse_verse. destruct f as [|raw f]; simpl.
  - by intros [= <- <-].
  - destruct (contains [TAB] (strip raw)); [done|].
    intros (HP & [pre ->] & Hlen)%parse_verse_body_inv.
    split; [done|]. split; [done|].
    split; [by exists (raw :: pre)|lia].
Qed.

Lemma parse_file_loop_inv (fuel : nat) (f : reader) (ws : list Word) :
  parse_file_loop fuel config f = Ok ws ->
  Forall (fun w => exists raw,
            raw ∈ f /\ contains [TAB] (strip raw) = false /\
            P (strip raw) w) ws /\
  (length ws <= pred (length f))%nat.
Proof.
  revert f ws. induction fuel as [|fuel IH]; intros f ws; [done|]. simpl.
  destruct (parse_verse config f) as [[ws1 rest]|] eqn:Hverse; [|done].
  apply parse_verse_inv in Hverse. simpl. destruct f as [|raw f].
  { destruct Hverse as [-> ->]. simpl. intros [= <-].
    split; [constructor|simpl; lia]. }
  destruct Hverse as (Htab & HP & [pre Hpre] & Hlen).
  assert (Forall (fun w => exists raw0,
            raw0 ∈ raw :: f /\ contains [TAB] (strip raw0) = false /\
            P (strip raw0) w) ws1) as H1.
  { eapply Forall_impl; [exact HP|]. intros w Hw. exists raw.
    split; [apply list_elem_of_here|done]. }
  destruct (has_another_line rest) eqn:Hmore.
  - destruct (parse_file_loop fuel config rest) as [ws2|] eqn:Hloop; [|done].
    simpl. intros [= <-]. destruct (IH rest ws2 Hloop) as [H2 Hlen2].
    split.
    + apply Forall_app. split; [done|].
      eapply Forall_impl; [exact H2|]. intros w (raw0 & Hin & Hw).
      exists raw0. split; [|done]. rewrite Hpre.
      apply elem_of_app. by right.
    + rewrite length_app. destruct rest; [done|]. simpl in *. lia.
  - intros [= <-]. split; [done|]. simpl in *. lia.
Qed.

Lemma parse_files_inv (files : list reader) (ws : list Word) :
  parse_files config files = Ok ws ->
  Forall (fun w => exists f raw,
            f ∈ files /\ raw ∈ f /\ contains [TAB] (strip raw) = false /\
            P (strip raw) w) ws.
Proof.
  revert ws. induction files as [|f files IH]; intros ws; simpl.
  - intros [= <-]. constructor.
  - destruct (parse_file f config) as [ws1|] eqn:Hfile; [|done]. simpl.
    destruct (parse_files config files) as [ws2|]; [|done]. simpl.
    intros [= <-]. apply Forall_app. split.
    + apply parse_file_loop_inv in Hfile as [Hfile _].
      eapply Forall_impl; [exact Hfile|]. intros w (raw & Hin & Hw).
      exists f, raw. split; [apply list_elem_of_here|done].
    + eapply Forall_impl; [exact (IH ws2 eq_refl)|].
      intros w (f0 & raw & Hin & Hw). exists f0, raw.
      split; [by apply list_elem_of_further|done].
Qed.

End ParserInvariant.

Lemma parse_suffix_inv verse config (fields : list str) (w : Word) :
  length fields = 3%nat ->
  parse_suffix verse fields config = Ok w ->
  exists f0 f1 f2,
    fields = [f0; f1; f2] /\
    w = {| verse_id := verse; form := f0; transliterated_form := f1;
           fts := Some (split_on SPACE f2);
           parts := handle_parts f2 config;
           lemma := None; transliterated_lemma := None;
           translation := None |}.
Proof.
  intros Hlen. list_of_length fields. rewrite parse_suffix_3.
  intros [= <-]. eauto 10.
Qed.

Lemma parse_word_inv verse config (fields : list str) (w : Word) :
  length fields = 5%nat \/ length fields = 6%nat ->
  parse_word verse fields config = Ok w ->
  exists f0 f1 f2 f3 f4,
    (fields = [f0; f1; f2; f3; f4] /\
     w = {| verse_id := verse; form := f0; transliterated_form := f1;
            fts := None; parts := None;
            lemma := Some f2; transliterated_lemma := Some f3;
            translation := Some f4 |}) \/
    (exists f5,
       fields = [f0; f1; f2; f3; f4; f5] /\
       w = {| verse_id := verse; form := f0; transliterated_form := f1;
              fts := Some (split_on SPACE f4);
              parts := handle_parts f4 config;
              lemma := Some f2; transliterated_lemma := Some f3;
              translation := Some f5 |}).
Proof.
  intros [Hlen|Hlen]; list_of_length fields.
  - rewrite parse_word_5. intros [= <-]. eexists _, _, _, _, _. by left.
  - rewrite parse_word_6. intros [= <-]. eexists _, _, _, _, _. right. eauto.
Qed.

(** X1.  Once a file is opened and decoded, [parse_file] returns on its
    lines, whatever they are: either the tab assertion of some verse
    identifier fails, or it gives the words of the file.  No index is ever
    out of range, the loops end, and since every verse takes one line for
    its identifier, a file yields fewer words than it has lines.  (Input
    and output are not part of the statement: what [open] and the utf-16
    decoder raise before any line is read, as on a file without byte-order
    mark, and what printing the message on an invalid line may raise.) *)
Theorem parse_file_returns (f : reader) (config : ConfigType) :
  parse_file f config = Raise AssertionError \/
  exists ws,
    parse_file f config = Ok ws /\ (length ws <= pred (length f))%nat.
Proof.
  destruct (parse_file_total f config) as [?|[ws Hws]]; [by left|right].
  exists ws. split; [done|].
  by apply (parse_file_loop_inv config (fun _ _ => True)) in Hws as [_ ?].
Qed.

Lemma tags_of_field (line field : str) :
  field ∈ split_on TAB line ->
  split_on SPACE field <> [] /\
  (forall t, t ∈ split_on SPACE field -> (SPACE ∉ t) /\ (TAB ∉ t)).
Proof.
  intros Hfield. split.
  - by destruct (split_on_cons SPACE field) as (h & t & ->).
  - intros t Ht. split.
    + pose proof (split_on_no_sep SPACE field) as Hsep.
      rewrite Forall_forall in Hsep. by apply Hsep.
    + intros Htab. apply (split_on_elem SPACE field t TAB Ht) in Htab.
      pose proof (split_on_no_sep TAB line) as Hsep.
      rewrite Forall_forall in Hsep. by apply (Hsep field).
Qed.

Lemma parse_files_tags (config : ConfigType) (files : list reader)
    (ws : list Word) (w : Word) (tags : list str) :
  parse_files config files = Ok ws ->
  w ∈ ws ->
  fts w = Some tags ->
  tags <> [] /\ (forall t, t ∈ tags -> (SPACE ∉ t) /\ (TAB ∉ t)).
Proof.
  intros Hparse Hw Htags.
  apply (parse_files_inv config
           (fun _ w => forall tags, fts w = Some tags ->
              tags <> [] /\ (forall t, t ∈ tags -> (SPACE ∉ t) /\ (TAB ∉ t))))
    in Hparse.
  - rewrite Forall_forall in Hparse.
    destruct (Hparse w Hw) as (f & raw & _ & _ & _ & HP). by apply HP.
  - intros verse raw0 w0 Htruthy Hlen Hw0.
    apply parse_suffix_inv in Hw0 as (f0 & f1 & f2 & Hfields & ->); [|done].
    simpl. intros tags0 [= <-]. apply (tags_of_field (strip raw0)).
    rewrite Hfields. do 2 apply list_elem_of_further. apply list_elem_of_here.
  - intros verse raw0 w0 Htruthy Hlen Hw0.
    apply parse_word_inv in Hw0
      as (f0 & f1 & f2 & f3 & f4 & [[_ ->]|(f5 & Hfields & ->)]);
      [| |done]; simpl; [done|].
    intros tags0 [= <-]. apply (tags_of_field (strip raw0)).
    rewrite Hfields. do 4 apply list_elem_of_further. apply list_elem_of_here.
Qed.

(** X3.  The tags of a parsed word, when present, are never the empty
    list, and no tag contains a space or a tab (a tag may be the empty
    string). *)
Theorem parsed_tags (config : ConfigType) (files : list reader)
    (ws : list Word) (w : Word) (tags : list str) :
  parse_files config files = Ok ws ->
  w ∈ ws ->
  fts w = Some tags ->
  tags <> [] /\ (forall t, t ∈ tags -> (SPACE ∉ t) /\ (TAB ∉ t)).
Proof. apply parse_files_tags. Qed.

Lemma parsed_tags_witness :
  [u "Suffix"; u "pronoun"] <> [] /\
  (forall t, t ∈ [u "Suffix"; u "pronoun"] -> (SPACE ∉ t) /\ (TAB ∉ t)).
Proof.
  apply (parsed_tags None [resolved_file_example] [suffix_word_example]
           suffix_word_example).
  - vm_compute. reflexivity.
  - apply list_elem_of_here.
  - reflexivity.
Defined.

(** X4.  A parsed word is either a suffix record (lemma, transliterated
    lemma and translation all absent, tags present) or a word record (lemma,
    transliterated lemma and translation all present); in both, neither form
    contains a tab. *)
Theorem parsed_word_shape (config : ConfigType) (files : list reader)
    (ws : list Word) (w : Word) :
  parse_files config files = Ok ws ->
  w ∈ ws ->
  (TAB ∉ form w) /\ (TAB ∉ transliterated_form w) /\
  ((lemma w = None /\ transliterated_lemma w = None /\
    translation w = None /\ is_Some (fts w)) \/
   (is_Some (lemma w) /\ is_Some (transliterated_lemma w) /\
    is_Some (translation w))).
Proof.
  intros Hparse Hw.
  apply (parse_files_inv config
           (fun _ w =>
              (TAB ∉ form w) /\ (TAB ∉ transliterated_form w) /\
              ((lemma w = None /\ transliterated_lemma w = None /\
                translation w = None /\ is_Some (fts w)) \/
               (is_Some (lemma w) /\ is_Some (transliterated_lemma w) /\
                is_Some (translation w))))) in Hparse.
  - rewrite Forall_forall in Hparse.
    by destruct (Hparse w Hw) as (f & raw & _ & _ & _ & HP).
  - intros verse raw0 w0 Htruthy Hlen Hw0.
    pose proof (split_on_no_sep TAB (strip raw0)) as Hsep.
    apply parse_suffix_inv in Hw0 as (f0 & f1 & f2 & Hfields & ->); [|done].
    rewrite Hfields in Hsep.
    apply Forall_cons in Hsep as [H0 Hsep].
    apply Forall_cons in Hsep as [H1 _]. simpl.
    split; [done|]. split; [done|]. left. eauto.
  - intros verse raw0 w0 Htruthy Hlen Hw0.
    pose proof (split_on_no_sep TAB (strip raw0)) as Hsep.
    apply parse_word_inv in Hw0
      as (f0 & f1 & f2 & f3 & f4 & [[Hfields ->]|(f5 & Hfields & ->)]);
      [| |done]; rewrite Hfields in Hsep;
      apply Forall_cons in Hsep as [H0 Hsep];
      apply Forall_cons in Hsep as [H1 _]; simpl;
      (split; [done|]); (split; [done|]); right; eauto.
Qed.

Lemma parsed_word_shape_witness :
  (TAB ∉ form suffix_word_example) /\
  (TAB ∉ transliterated_form suffix_word_example) /\
  ((lemma suffix_word_example = None /\
    transliterated_lemma suffix_word_example = None /\
    translation suffix_word_example = None /\
    is_Some (fts suffix_word_example)) \/
   (is_Some (lemma suffix_word_example) /\
    is_Some (transliterated_lemma suffix_word_example) /\
    is_Some (translation suffix_word_example))).
Proof.
  apply (parsed_word_shape None [resolved_file_example] [suffix_word_example]
           suffix_word_example).
  - vm_compute. reflexivity.
  - apply list_elem_of_here.
Defined.

Lemma parts_comprehension_NoDup (c : Config) (tags : list str)
    (acc : dict part_value) :
  NoDup (dict_keys acc) ->
  NoDup (dict_keys (parts_comprehension c tags acc)).
Proof.
  revert acc. induction tags as [|t tags IH]; intros acc Hacc; simpl; [done|].
  apply IH. by apply dict_set_NoDup.
Qed.

(** X5.  Without a config no word has resolved parts; with a config the
    resolved parts are present exactly when the tags are, and their keys
    are distinct. *)
Theorem parsed_parts_presence (config : ConfigType) (files : list reader)
    (ws : list Word) (w : Word) :
  parse_files config files = Ok ws ->
  w ∈ ws ->
  match config with
  | None => parts w = None
  | Some _ =>
      (parts w = None <-> fts w = None) /\
      forall d, parts w = Some d -> NoDup (dict_keys d)
  end.
Proof.
  intros Hparse Hw. apply parse_files_resolved in Hparse.
  rewrite Forall_forall in Hparse. specialize (Hparse w Hw).
  unfold word_resolved in Hparse. rewrite Hparse.
  destruct config as [c|]; simpl; [|done].
  destruct (fts w) as [tags|]; [|by split].
  split; [split; discriminate|]. intros d [= <-].
  apply parts_comprehension_NoDup. constructor.
Qed.

Lemma parsed_parts_presence_witness :
  parts suffix_word_example = None.
Proof.
  apply (parsed_parts_presence None [resolved_file_example]
           [suffix_word_example] suffix_word_example).
  - vm_compute. reflexivity.
  - apply list_elem_of_here.
Defined.

(** ** Skipped lines *)

(** X6.  Within a verse body, the lines that contain a bracket or the
    special glyph leave no trace: parsing the body without them gives the
    same words, and leaves the same lines (less the skipped ones) for the
    following verses.  (An identifier line is never skipped.) *)
Theorem skipped_lines_ignored verse config (f : reader) (ws : list Word)
    (rest : reader) :
  parse_verse_body verse config f = Ok (ws, rest) ->
  parse_verse_body verse config
    (List.filter (fun raw => negb (is_skipped (strip raw))) f) =
    Ok (ws, List.filter (fun raw => negb (is_skipped (strip raw))) rest).
Proof.
  revert ws rest. induction f as [|raw f IH]; intros ws rest.
  - by intros [= <- <-].
  - simpl. destruct (is_skipped (strip raw)) eqn:Hskip; simpl; [by apply IH|].
    rewrite Hskip. destruct (truthy (strip raw)); simpl; [|by intros [= <- <-]].
    repeat case_decide.
    + destruct (parse_suffix verse _ config) as [w|]; [|done]. simpl.
      destruct (parse_verse_body verse config f) as [[ws' rest']|]; [|done].
      simpl. intros [= <- <-]. by rewrite (IH ws' rest').
    + destruct (parse_word verse _ config) as [w|]; [|done]. simpl.
      destruct (parse_verse_body verse config f) as [[ws' rest']|]; [|done].
      simpl. intros [= <- <-]. by rewrite (IH ws' rest').
    + by apply IH.
Qed.

Lemma skipped_lines_ignored_witness :
  parse_verse_body (u "Gen.1.1") None
    (List.filter (fun raw => negb (is_skipped (strip raw)))
       skipped_body_example) =
    Ok ([suffix_word_example],
        List.filter (fun raw => negb (is_skipped (strip raw)))
          [u "Gen.1.2" ++ [NL]]).
Proof.
  apply (skipped_lines_ignored (u "Gen.1.1") None skipped_body_example
           [suffix_word_example] [u "Gen.1.2" ++ [NL]]).
  vm_compute. reflexivity.
Defined.

(** ** The config only decides the resolved parts *)

Lemma parse_suffix_clear (verse : str) (fields : list str) (c1 c2 : ConfigType) :
  rmap clear_parts (parse_suffix verse fields c1) =
  rmap clear_parts (parse_suffix verse fields c2).
Proof.
  unfold parse_suffix, index.
  destruct (fields !! 0%nat); [|done]. destruct (fields !! 1%nat); [|done].
  by destruct (fields !! 2%nat).
Qed.

Lemma parse_word_clear (verse : str) (fields : list str) (c1 c2 : ConfigType) :
  rmap clear_parts (parse_word verse fields c1) =
  rmap clear_parts (parse_word verse fields c2).
Proof.
  unfold parse_word, index, index_last.
  destruct (fields !! 0%nat); [|done]. destruct (fields !! 1%nat); [|done].
  destruct (fields !! 2%nat); [|done]. destruct (fields !! 3%nat); [|done].
  simpl. case_decide; simpl.
  - destruct (fields !! 4%nat); [|done]. simpl. by destruct (last fields).
  - by destruct (last fields).
Qed.

Lemma rmap_clear_inv (r1 r2 : result Word) :
  rmap clear_parts r1 = rmap clear_parts r2 ->
  (exists e, r1 = Raise e /\ r2 = Raise e) \/
  (exists w1 w2, r1 = Ok w1 /\ r2 = Ok w2 /\ clear_parts w1 = clear_parts w2).
Proof.
  destruct r1 as [w1|e1], r2 as [w2|e2]; simpl; intros H; try done.
  - right. exists w1, w2. split; [done|]. split; [done|]. congruence.
  - left. exists e2. split; [congruence|done].
Qed.

Lemma parse_verse_body_clear (verse : str) (c1 c2 : ConfigType) (f : reader) :
  rmap (fun r => (map clear_parts (fst r), snd r))
    (parse_verse_body verse c1 f) =
  rmap (fun r => (map clear_parts (fst r), snd r))
    (parse_verse_body verse c2 f).
Proof.
  induction f as [|raw f IH]; simpl; [done|].
  destruct (is_skipped (strip raw)); [done|].
  destruct (truthy (strip raw)); simpl; [|done].
  assert (forall r1 r2 : result Word,
            rmap clear_parts r1 = rmap clear_parts r2 ->
            rmap (fun r => (map clear_parts (fst r), snd r))
              (w <-! r1;; r <-! parse_verse_body verse c1 f;;
               Ok (w :: fst r, snd r)) =
            rmap (fun r => (map clear_parts (fst r), snd r))
              (w <-! r2;; r <-! parse_verse_body verse c2 f;;
               Ok (w :: fst r, snd r))) as Hstep.
  { intros r1 r2 [(e & -> & ->)|(w1 & w2 & -> & -> & Hw)]%rmap_clear_inv;
      [done|]. simpl.
    destruct (parse_verse_body verse c1 f) as [[ws1 rest1]|e1],
             (parse_verse_body verse c2 f) as [[ws2 rest2]|e2];
      simpl in *; try done.
    injection IH as Hws Hrest. by rewrite Hw, Hws, Hrest. }
  repeat case_decide; [apply Hstep, parse_suffix_clear|
                       apply Hstep, parse_word_clear|done].
Qed.

Lemma parse_file_loop_clear (fuel : nat) (c1 c2 : ConfigType) (f : reader) :
  rmap (map clear_parts) (parse_file_loop fuel c1 f) =
  rmap (map clear_parts) (parse_file_loop fuel c2 f).
Proof.
  revert f. induction fuel as [|fuel IH]; intros f; [done|]. simpl.
  unfold parse_verse. destruct (readline f) as [raw f'].
  destruct (contains [TAB] (strip raw)); [done|].
  pose proof (parse_verse_body_clear (strip raw) c1 c2 f') as Hbody.
  destruct (parse_verse_body (strip raw) c1 f') as [[ws1 rest1]|e1],
           (parse_verse_body (strip raw) c2 f') as [[ws2 rest2]|e2];
    simpl in *; try done; try congruence.
  injection Hbody as Hws <-. destruct (has_another_line rest1).
  - specialize (IH rest1).
    destruct (parse_file_loop fuel c1 rest1) as [ws1'|],
             (parse_file_loop fuel c2 rest1) as [ws2'|];
      simpl in *; try done.
    injection IH as IH. by rewrite !map_app, Hws, IH.
  - simpl. by rewrite Hws.
Qed.

(** X7.  The config has no influence on what is parsed except for the
    resolved parts: with any two configs (or none), the files give the same
    outcome and the same words in the same order, up to their [parts].  In
    particular the table-mode run sees the words that the config-generation
    run saw. *)
Theorem parsing_ignores_config (c1 c2 : ConfigType) (files : list reader) :
  rmap (map clear_parts) (parse_files c1 files) =
  rmap (map clear_parts) (parse_files c2 files).
Proof.
  induction files as [|f files IH]; simpl; [done|].
  pose proof (parse_file_loop_clear (S (length f)) c1 c2 f) as Hfile.
  fold (parse_file f c1) (parse_file f c2) in Hfile.
  destruct (parse_file f c1) as [ws1|], (parse_file f c2) as [ws2|];
    simpl in *; try done.
  destruct (parse_files c1 files) as [ws1'|], (parse_files c2 files) as [ws2'|];
    simpl in *; try done.
  injection Hfile as Hfile. injection IH as IH.
  by rewrite !map_app, Hfile, IH.
Qed.

(** ** The first and the last field of a data line *)

Lemma lstrip_head (s : str) (c : N) (s' : str) :
  lstrip s = c :: s' -> is_space c = false.
Proof.
  induction s as [|a s IH]; simpl; [done|].
  destruct (is_space a) eqn:Ha; [done|]. by intros [= <- _].
Qed.

Lemma lstrip_suffix (s : str) : exists pre, s = pre ++ lstrip s.
Proof.
  induction s as [|a s [pre IH]]; simpl; [by exists []|].
  destruct (is_space a); [|by exists []].
  exists (a :: pre). simpl. by rewrite <- IH.
Qed.

Lemma strip_head (s : str) (c : N) (s' : str) :
  strip s = c :: s' -> is_space c = false.
Proof.
  unfold strip, rstrip. intros Hstrip.
  destruct (lstrip_suffix (rev (lstrip s))) as [pre Hpre].
  apply (f_equal (@rev N)) in Hpre.
  rewrite rev_involutive, rev_app_distr, Hstrip in Hpre.
  by apply (lstrip_head s c (s' ++ rev pre)).
Qed.

Lemma strip_last (s s' : str) (c : N) :
  strip s = s' ++ [c] -> is_space c = false.
Proof.
  unfold strip, rstrip. intros Hstrip.
  apply (f_equal (@rev N)) in Hstrip.
  rewrite rev_involutive, rev_app_distr in Hstrip.
  by apply (lstrip_head (rev (lstrip s)) c (rev s')).
Qed.

Lemma split_on_head (c d : N) (s : str) :
  d <> c -> exists h t, split_on c (d :: s) = (d :: h) :: t.
Proof.
  intros Hd. simpl. destruct (N.eqb_spec d c); [done|].
  destruct (split_on c s); eauto.
Qed.

Lemma split_on_last (c : N) (s : str) (d : N) :
  d <> c -> exists x, last (split_on c (s ++ [d])) = Some (x ++ [d]).
Proof.
  intros Hd. induction s as [|a s [x IH]]; simpl.
  - destruct (N.eqb_spec d c); [done|]. by exists [].
  - destruct (a =? c).
    + exists x. rewrite last_cons. by rewrite IH.
    + destruct (split_on c (s ++ [d])) as [|h t]; [done|].
      rewrite last_cons in IH. rewrite last_cons.
      destruct (last t) as [y|]; [by exists x|].
      injection IH as ->. by exists (a :: x).
Qed.

Lemma stripped_line_fields (raw : str) :
  truthy (strip raw) = true ->
  (exists h t, split_on TAB (strip raw) = (h :: t) /\ h <> []) /\
  (exists x d,
     last (split_on TAB (strip raw)) = Some (x ++ [d]) /\
     is_space d = false).
Proof.
  intros Htruthy. split.
  - destruct (strip raw) as [|c s] eqn:Hstrip; [done|].
    apply strip_head in Hstrip.
    destruct (split_on_head TAB c s) as (h & t & ->); [by intros ->|].
    by exists (c :: h), t.
  - destruct (strip raw) as [|c s] eqn:Hstrip using rev_ind; [done|].
    apply strip_last in Hstrip.
    destruct (split_on_last TAB s c) as [x Hx]; [by intros ->|]. eauto.
Qed.

Lemma last_field_tags (x : str) (d : N) :
  is_space d = false ->
  exists tags t, split_on SPACE (x ++ [d]) = tags ++ [t] /\ t <> [].
Proof.
  intros Hd. destruct (split_on_last SPACE x d) as [y Hy]; [by intros ->|].
  apply last_Some in Hy as [tags Htags]. exists tags, (y ++ [d]).
  split; [done|]. by destruct y.
Qed.

(** X8.  Because each line is stripped before it is split, the first and
    the last field of a data line are never empty: the form of a parsed
    word is not empty, its translation, when present, is not empty, and the
    last tag of a suffix record is not empty.  (An empty field can only be
    an inner one, as the tag field of a six-field line.) *)
Theorem parsed_outer_fields (config : ConfigType) (files : list reader)
    (ws : list Word) (w : Word) :
  parse_files config files = Ok ws ->
  w ∈ ws ->
  form w <> [] /\
  (forall t, translation w = Some t -> t <> []) /\
  (lemma w = None ->
   exists tags t, fts w = Some (tags ++ [t]) /\ t <> []).
Proof.
  intros Hparse Hw.
  apply (parse_files_inv config
           (fun _ w =>
              form w <> [] /\
              (forall t, translation w = Some t -> t <> []) /\
              (lemma w = None ->
               exists tags t, fts w = Some (tags ++ [t]) /\ t <> [])))
    in Hparse.
  - rewrite Forall_forall in Hparse.
    by destruct (Hparse w Hw) as (f & raw & _ & _ & _ & HP).
  - intros verse raw0 w0 Htruthy Hlen Hw0.
    destruct (stripped_line_fields raw0 Htruthy)
      as [(h & t & Hhead & Hh) (x & d & Hlast & Hd)].
    apply parse_suffix_inv in Hw0 as (f0 & f1 & f2 & Hfields & ->); [|done].
    rewrite Hfields in Hhead, Hlast. injection Hhead as -> _.
    injection Hlast as ->. simpl. split; [done|]. split; [done|].
    intros _. destruct (last_field_tags x d Hd) as (tags & t' & -> & Ht').
    eauto.
  - intros verse raw0 w0 Htruthy Hlen Hw0.
    destruct (stripped_line_fields raw0 Htruthy)
      as [(h & t & Hhead & Hh) (x & d & Hlast & Hd)].
    apply parse_word_inv in Hw0
      as (f0 & f1 & f2 & f3 & f4 & [[Hfields ->]|(f5 & Hfields & ->)]);
      [| |done]; rewrite Hfields in Hhead, Hlast; injection Hhead as -> _;
      injection Hlast as ->; simpl; (split; [done|]);
      (split; [|done]); intros t' [= <-]; by destruct x.
Qed.

Lemma parsed_outer_fields_witness :
  form suffix_word_example <> [] /\
  (forall t, translation suffix_word_example = Some t -> t <> []) /\
  (lemma suffix_word_example = None ->
   exists tags t, fts suffix_word_example = Some (tags ++ [t]) /\ t <> []).
Proof.
  apply (parsed_outer_fields None [resolved_file_example]
           [suffix_word_example] suffix_word_example).
  - vm_compute. reflexivity.
  - apply list_elem_of_here.
Defined.

(** A line of six fields whose last field is empty loses it when it is
    stripped: it is read as a line of five fields, the tag string becomes
    the translation, and the tags are absent. *)
Lemma empty_translation_example :
  exists w,
    parse_verse_body (u "Gen.1.1") None [empty_translation_line_example] =
      Ok ([w], []) /\
    translation w = Some (u "Verb qal") /\ fts w = None.
Proof. eexists. split; [vm_compute; reflexivity|]. by split. Qed.

(** ** Verses are parsed one after the other *)

(** More fuel than needed changes nothing. *)
Lemma parse_file_loop_fuel (fuel fuel' : nat) config (f : reader) :
  (length f < fuel)%nat -> (length f < fuel')%nat ->
  parse_file_loop fuel config f = parse_file_loop fuel' config f.
Proof.
  revert fuel' f. induction fuel as [|fuel IH]; intros [|fuel'] f Hf Hf';
    try lia. simpl.
  destruct (parse_verse_cases config f)
    as [->|(ws & rest & -> & Hle & Hlt)]; [done|]. simpl.
  destruct (has_another_line rest) eqn:Hmore; [|done].
  assert (f <> []) as Hne.
  { intros ->. simpl in Hle. destruct rest; [done|simpl in Hle; lia]. }
  specialize (Hlt Hne). by rewrite (IH fuel' rest) by lia.
Qed.

Lemma parse_verse_body_block_all verse config (body : list str)
    (blank : str) :
  Forall (fun l => strip l <> []) body ->
  strip blank = [] ->
  exists ws, forall rest,
    parse_verse_body verse config (body ++ blank :: rest) = Ok (ws, rest).
Proof.
  intros Hbody Hblank. induction Hbody as [|raw body Hraw _ [ws IH]]; simpl.
  - rewrite Hblank. simpl. eauto.
  - destruct (is_skipped (strip raw)); [by eauto|].
    assert (truthy (strip raw) = true) as ->
      by (by destruct (strip raw)).
    simpl. repeat case_decide.
    + destruct (parse_suffix_ok verse config (split_on TAB (strip raw)))
        as [w ->]; [done|].
      exists (w :: ws). intros rest. by rewrite IH.
    + destruct (parse_word_ok verse config (split_on TAB (strip raw)))
        as [w ->]; [done|].
      exists (w :: ws). intros rest. by rewrite IH.
    + eauto.
Qed.

(** X9.  A file is parsed verse by verse: when it starts with a complete
    verse block (an identifier without inner tab, body lines that are not
    blank, the blank line that ends the verse), its words are the words of
    that block followed by the words of the rest of the file, parsed as a
    file of its own; they are the words of the block alone when nothing
    follows. *)
Theorem parse_file_verse_by_verse (config : ConfigType) (ident : str)
    (body : list str) (blank : str) (rest : reader) :
  contains [TAB] (strip ident) = false ->
  Forall (fun l => strip l <> []) body ->
  strip blank = [] ->
  exists ws,
    parse_verse_body (strip ident) config (body ++ [blank]) = Ok (ws, []) /\
    parse_file (ident :: body ++ blank :: rest) config =
      if has_another_line rest
      then ws2 <-! parse_file rest config;; Ok (ws ++ ws2)
      else Ok ws.
Proof.
  intros Htab Hbody Hblank.
  destruct (parse_verse_body_block_all (strip ident) config body blank)
    as [ws Hws]; [done..|].
  exists ws. split; [apply Hws|].
  assert (parse_verse config (ident :: body ++ blank :: rest) =
            Ok (ws, rest)) as Hverse.
  { unfold parse_verse. cbn [readline]. rewrite Htab. apply Hws. }
  unfold parse_file.
  change (parse_file_loop (S (length (ident :: body ++ blank :: rest)))
            config (ident :: body ++ blank :: rest))
    with (r <-! parse_verse config (ident :: body ++ blank :: rest);;
          if has_another_line (snd r)
          then rest0 <-! parse_file_loop
                           (length (ident :: body ++ blank :: rest))
                           config (snd r);;
               Ok (fst r ++ rest0)
          else Ok (fst r)).
  rewrite Hverse. cbn [rbind fst snd].
  destruct (has_another_line rest); [|done].
  rewrite (parse_file_loop_fuel (length (ident :: body ++ blank :: rest))
             (S (length rest))); [done| |lia].
  simpl. rewrite length_app. simpl. lia.
Qed.

Lemma parse_file_verse_by_verse_witness :
  exists ws,
    parse_verse_body (strip (u "Gen.1.1" ++ [NL])) None
      ([suffix_line_example] ++ [[NL]]) = Ok (ws, []) /\
    parse_file
      ((u "Gen.1.1" ++ [NL]) :: [suffix_line_example] ++
       [NL] :: [u "Gen.1.2" ++ [NL]; word5_line_example]) None =
      if has_another_line [u "Gen.1.2" ++ [NL]; word5_line_example]
      then ws2 <-! parse_file [u "Gen.1.2" ++ [NL]; word5_line_example] None;;
           Ok (ws ++ ws2)
      else Ok ws.
Proof.
  apply (parse_file_verse_by_verse None (u "Gen.1.1" ++ [NL])
           [suffix_line_example] [NL]
           [u "Gen.1.2" ++ [NL]; word5_line_example]).
  - vm_compute. reflexivity.
  - constructor; [|constructor]. vm_compute. discriminate.
  - vm_compute. reflexivity.
Defined.

(** ** Every word carries the identifier of its own verse *)






(** ** A blank line at the end of a file *)

Lemma parse_verse_body_snoc verse config (f : reader) (blank : str)
    (ws : list Word) (rest : reader) :
  strip blank = [] ->
  parse_verse_body verse config f = Ok (ws, rest) ->
  parse_verse_body verse config (f ++ [blank]) = Ok (ws, rest ++ [blank]) \/
  (rest = [] /\ parse_verse_body verse config (f ++ [blank]) = Ok (ws, [])).
Proof.
  intros Hblank. revert ws rest.
  induction f as [|raw f IH]; intros ws rest; simpl.
  - intros [= <- <-]. right. rewrite Hblank. by simpl.
  - destruct (is_skipped (strip raw)); [by apply IH|].
    destruct (truthy (strip raw)); simpl; [|intros [= <- <-]; by left].
    assert (forall w : Word,
      (r <-! parse_verse_body verse config f;; Ok (w :: fst r, snd r)) =
        Ok (ws, rest) ->
      (r <-! parse_verse_body verse config (f ++ [blank]);;
         Ok (w :: fst r, snd r)) = Ok (ws, rest ++ [blank]) \/
      (rest = [] /\
       (r <-! parse_verse_body verse config (f ++ [blank]);;
          Ok (w :: fst r, snd r)) = Ok (ws, []))) as Hstep.
    { intros w.
      destruct (parse_verse_body verse config f) as [[ws' rest']|]; [|done].
      simpl. intros [= <- <-].
      destruct (IH ws' rest' eq_refl) as [->|[-> ->]]; [by left|by right]. }
    repeat case_decide.
    + destruct (parse_suffix verse _ config) as [w|]; [|done]. apply Hstep.
    + destruct (parse_word verse _ config) as [w|]; [|done]. apply Hstep.
    + apply IH.
Qed.

Lemma parse_file_loop_snoc (fuel : nat) config (f : reader) (blank : str) :
  strip blank = [] ->
  (length (f ++ [blank]) < fuel)%nat ->
  parse_file_loop fuel config (f ++ [blank]) = parse_file_loop fuel config f.
Proof.
  intros Hblank. revert f.
  induction fuel as [|fuel IH]; intros f Hfuel; [lia|].
  assert (forall fuel0, parse_file_loop (S fuel0) config [blank] = Ok [])
    as Hlast.
  { intros fuel0. simpl. unfold parse_verse. simpl. by rewrite Hblank. }
  destruct f as [|raw f]; [by rewrite Hlast|].
  simpl. unfold parse_verse. simpl.
  destruct (contains [TAB] (strip raw)); [done|].
  destruct (parse_verse_body_ok (strip raw) config f)
    as (ws & rest & Hbody & Hle & _).
  rewrite Hbody. simpl in Hfuel. rewrite length_app in Hfuel.
  simpl in Hfuel.
  destruct (parse_verse_body_snoc (strip raw) config f blank ws rest
              Hblank Hbody) as [->|[-> ->]]; simpl; [|done].
  destruct rest as [|raw' rest].
  - simpl. destruct (has_another_line [blank]); [|done].
    destruct fuel as [|fuel]; [lia|]. rewrite Hlast. simpl.
    by rewrite app_nil_r.
  - change (has_another_line ((raw' :: rest) ++ [blank]))
      with (has_another_line (raw' :: rest)).
    destruct (has_another_line (raw' :: rest)); [|done].
    rewrite IH; [done|]. rewrite length_app. simpl in *. lia.
Qed.

(** X10.  A blank line at the end of a file changes nothing: with or
    without it the file gives the same words or the same failure.  The end
    of the file ends the last verse as a blank line would. *)
Theorem trailing_blank_line (config : ConfigType) (f : reader)
    (blank : str) :
  strip blank = [] ->
  parse_file (f ++ [blank]) config = parse_file f config.
Proof.
  intros Hblank. unfold parse_file.
  rewrite parse_file_loop_snoc by (done || lia).
  apply parse_file_loop_fuel; rewrite ?length_app; simpl; lia.
Qed.

Lemma trailing_blank_line_witness :
  parse_file (two_verses_example ++ [[NL]]) None =
  parse_file two_verses_example None.
Proof.
  apply (trailing_blank_line None two_verses_example [NL]).
  vm_compute. reflexivity.
Defined.

(** ** ConfigStore: what a config that was read looks like *)

Lemma lstrip_id (s : str) :
  match s with [] => True | c :: _ => is_space c = false end ->
  lstrip s = s.
Proof. destruct s as [|c s]; simpl; [done|]. by intros ->. Qed.

Lemma strip_idemp (s : str) : strip (strip s) = strip s.
Proof.
  assert (lstrip (strip s) = strip s) as Hl.
  { apply lstrip_id. destruct (strip s) as [|c t] eqn:Hs; [done|].
    by apply (strip_head s c t). }
  unfold strip at 1. rewrite Hl. unfold rstrip.
  rewrite lstrip_id; [apply rev_involutive|].
  destruct (strip s) as [|c t] eqn:Hs using rev_ind; [done|].
  rewrite rev_app_distr. simpl. by apply (strip_last s t c).
Qed.

Lemma elem_of_rev (l : str) (d : N) : d ∈ rev l <-> d ∈ l.
Proof. rewrite !list_elem_of_In. symmetry. apply in_rev. Qed.

Lemma strip_elem (s : str) (d : N) : d ∈ strip s -> d ∈ s.
Proof.
  assert (forall x : str, d ∈ lstrip x -> d ∈ x) as Hl.
  { intros x Hd. destruct (lstrip_suffix x) as [pre Hpre].
    rewrite Hpre. apply elem_of_app. by right. }
  unfold strip, rstrip. intros Hd.
  apply (proj1 (elem_of_rev _ d)), Hl, (proj1 (elem_of_rev _ d)) in Hd.
  by apply Hl.
Qed.

Lemma read_config_lines_app (ret : Config) (l1 l2 : list str) :
  read_config_lines ret (l1 ++ l2) =
    match read_config_lines ret l1 with
    | Some c => read_config_lines c l2
    | None => None
    end.
Proof.
  revert ret. induction l1 as [|line l1 IH]; intros ret; simpl; [done|].
  by destruct (read_config_line ret line).
Qed.

(** X11.  The config is built line by line, and a later line for a
    category replaces what an earlier line gave it: after one more
    well-formed line, its category holds exactly the values of that line,
    and every other category is as before. *)
Theorem read_config_later_line_wins (lines : list str) (line : str)
    (c : Config) (p0 p1 : str) :
  read_config (Some lines) = Some c ->
  split_on COLON line = [p0; p1] ->
  exists c',
    read_config (Some (lines ++ [line])) = Some c' /\
    dict_get (strip p0) c' = Some (list_to_set (split_on COMMA p1)) /\
    forall title, title <> strip p0 -> dict_get title c' = dict_get title c.
Proof.
  simpl. intros Hlines Hline.
  exists (dict_set (strip p0) (list_to_set (split_on COMMA p1)) c).
  split; [|split].
  - rewrite read_config_lines_app, Hlines. simpl.
    unfold read_config_line. by rewrite Hline.
  - apply dict_get_set_eq.
  - intros title Hne. by apply dict_get_set_ne.
Qed.

Lemma read_config_later_line_wins_witness :
  exists c',
    read_config (Some ([u "pos:noun,verb" ++ [NL]] ++ [u "pos:particle"])) =
      Some c' /\
    dict_get (strip (u "pos")) c' =
      Some (list_to_set (split_on COMMA (u "particle"))) /\
    forall title, title <> strip (u "pos") ->
      dict_get title c' =
        dict_get title [(u "pos", {[ u "noun"; u "verb" ++ [NL] ]})].
Proof.
  apply (read_config_later_line_wins [u "pos:noun,verb" ++ [NL]]
           (u "pos:particle")
           [(u "pos", {[ u "noun"; u "verb" ++ [NL] ]})]
           (u "pos") (u "particle")).
  - vm_compute. reflexivity.
  - vm_compute. reflexivity.
Defined.

Lemma read_config_lines_inv (Q : str -> gset str -> Prop)
    (ret c : Config) (lines : list str) :
  (forall p0 p1, COLON ∉ p0 -> COLON ∉ p1 ->
     Q (strip p0) (list_to_set (split_on COMMA p1))) ->
  (forall title terms, dict_get title ret = Some terms -> Q title terms) ->
  read_config_lines ret lines = Some c ->
  forall title terms, dict_get title c = Some terms -> Q title terms.
Proof.
  intros HQ. revert ret. induction lines as [|line lines IH]; intros ret Hret.
  - by intros [= <-].
  - simpl. destruct (read_config_line ret line) as [ret'|] eqn:Hline; [|done].
    apply IH. unfold read_config_line in Hline.
    pose proof (split_on_no_sep COLON line) as Hsep.
    destruct (split_on COLON line) as [|p0 [|p1 [|p2 l]]]; try done.
    injection Hline as <-.
    apply Forall_cons in Hsep as [H0 Hsep].
    apply Forall_cons in Hsep as [H1 _]. intros title terms.
    destruct (decide (strip p0 = title)) as [<-|Hne].
    + rewrite dict_get_set_eq. intros [= <-]. by apply HQ.
    + rewrite dict_get_set_ne by done. apply Hret.
Qed.

(** X12.  In a config that [read_config] returns, the category names are
    distinct, carry no surrounding whitespace and no colon; every category
    has at least one value, and no value contains a comma or a colon. *)
Theorem read_config_invariants (lines : list str) (c : Config) :
  read_config (Some lines) = Some c ->
  NoDup (dict_keys c) /\
  forall title terms,
    dict_get title c = Some terms ->
    strip title = title /\ (COLON ∉ title) /\ terms <> ∅ /\
    forall t, t ∈ terms -> (COMMA ∉ t) /\ (COLON ∉ t).
Proof.
  intros Hread. split; [by destruct (read_config_wf lines c Hread)|].
  apply (read_config_lines_inv
           (fun title terms =>
              strip title = title /\ (COLON ∉ title) /\ terms <> ∅ /\
              forall t, t ∈ terms -> (COMMA ∉ t) /\ (COLON ∉ t))
           [] c lines); [|done|done].
  intros p0 p1 H0 H1. split; [apply strip_idemp|].
  split; [by intros ?%strip_elem|]. split.
  - destruct (split_on_cons COMMA p1) as (h & t & ->).
    intros Hempty. assert (h ∈ (∅ : gset str)) as Hh; [|done].
    rewrite <- Hempty. apply elem_of_list_to_set, list_elem_of_here.
  - intros t Ht%elem_of_list_to_set. split.
    + pose proof (split_on_no_sep COMMA p1) as Hsep.
      rewrite Forall_forall in Hsep. by apply Hsep.
    + intros Hcolon. by apply (split_on_elem COMMA p1 t COLON Ht) in Hcolon.
Qed.

Lemma read_config_invariants_witness :
  NoDup (dict_keys csv_config_example) /\
  forall title terms,
    dict_get title csv_config_example = Some terms ->
    strip title = title /\ (COLON ∉ title) /\ terms <> ∅ /\
    forall t, t ∈ terms -> (COMMA ∉ t) /\ (COLON ∉ t).
Proof.
  apply (read_config_invariants csv_config_lines_example csv_config_example).
  vm_compute. reflexivity.
Defined.

(** ** TableWriter: the rows and the header *)

Lemma dict_get_None_keys {V} (k : str) (d : dict V) :
  dict_get k d = None <-> k ∉ dict_keys d.
Proof.
  unfold dict_keys. induction d as [|[k' v] d IH]; simpl.
  - split; [by intros _ ?%elem_of_nil|done].
  - rewrite not_elem_of_cons. destruct (decide (k = k')) as [->|Hne].
    + split; [done|]. by intros [? _].
    + rewrite IH. tauto.
Qed.

Lemma dict_keys_set_list {V} (k : str) (v : V) (d : dict V) :
  dict_keys (dict_set k v d) =
    if decide (k ∈ dict_keys d) then dict_keys d else dict_keys d ++ [k].
Proof.
  unfold dict_keys. induction d as [|[k' v'] d IH].
  - cbn [dict_set map fst]. destruct (decide (k ∈ [])) as [Hin|_]; [|done].
    by apply elem_of_nil in Hin.
  - cbn [dict_set]. destruct (decide (k = k')) as [->|Hne]; cbn [map fst].
    + destruct (decide (k' ∈ k' :: map fst d)) as [_|Hnin]; [done|].
      destruct Hnin. apply list_elem_of_here.
    + rewrite IH. destruct (decide (k ∈ map fst d)) as [Hin|Hnin];
        destruct (decide (k ∈ k' :: map fst d)) as [Hin'|Hnin']; try done.
      * destruct Hnin'. by apply list_elem_of_further.
      * apply elem_of_cons in Hin' as [?|?]; done.
Qed.

(** The keys of a row depend on the keys it starts from and on the config,
    not on the word. *)
Lemma csv_row_keys {V} (f : str * gset str -> V) (config : Config)
    (base : dict V) :
  exists more,
    dict_keys (foldl (fun w entry => dict_set (fst entry) (f entry) w)
                 base config) = dict_keys base ++ more /\
    forall g (base' : dict V),
      dict_keys base' = dict_keys base ->
      dict_keys (foldl (fun w entry => dict_set (fst entry) (g entry) w)
                   base' config) = dict_keys base ++ more.
Proof.
  revert base. induction config as [|[k terms] config IH]; intros base.
  - exists []. simpl. rewrite app_nil_r. split; [done|]. by intros g base' ->.
  - cbn [foldl fst]. destruct (IH (dict_set k (f (k, terms)) base))
      as (more & Hkeys & Hother).
    assert (forall g (base' : dict V),
              dict_keys base' = dict_keys base ->
              dict_keys (dict_set k (g (k, terms)) base') =
              dict_keys (dict_set k (f (k, terms)) base)) as Hset.
    { intros g base' Hbase. by rewrite !dict_keys_set_list, Hbase. }
    pose proof (dict_keys_set_list k (f (k, terms)) base) as Hk.
    destruct (decide (k ∈ dict_keys base)) as [Hin|Hnin].
    + exists more. split; [by rewrite Hkeys, Hk|]. intros g base' Hbase.
      rewrite (Hother g); [by rewrite Hk|]. by apply Hset.
    + exists (k :: more). split; [by rewrite Hkeys, Hk, <- app_assoc|].
      intros g base' Hbase. rewrite (Hother g); [|by apply Hset].
      by rewrite Hk, <- app_assoc.
Qed.

(** X13.  When [write_csv] returns, there is one row per word, in the order
    of the words, and every row has exactly the keys of the header, in the
    same order: [DictWriter.writerow] never meets a key that is not a field
    name.  The header starts with the seven fixed columns. *)
Theorem write_csv_header (set_iter : gset str -> list str)
    (words : list Word) (config : Config) (fieldnames : list str)
    (rows : list (dict (option str))) :
  write_csv set_iter words config = Ok (fieldnames, rows) ->
  rows = map (csv_row set_iter config) words /\
  length rows = length words /\
  Forall (fun row => dict_keys row = fieldnames) rows /\
  exists more, fieldnames = fixed_columns ++ more.
Proof.
  unfold write_csv.
  destruct (last (map (csv_row set_iter config) words)) as [w|] eqn:Hlast;
    [|done].
  intros [= <- <-]. split; [done|]. split; [apply length_map|].
  apply last_Some in Hlast as [rows' Hrows].
  assert (w ∈ map (csv_row set_iter config) words) as Hw.
  { rewrite Hrows. apply elem_of_app. right. apply list_elem_of_here. }
  apply list_elem_of_fmap in Hw as (w0 & -> & _).
  destruct (csv_row_keys
              (fun entry => Some (category_cell set_iter (snd entry) w0))
              config (csv_fixed w0)) as (more & Hkeys & Hother).
  change (dict_keys (csv_row set_iter config w0) = fixed_columns ++ more)
    in Hkeys.
  split; [|by exists more].
  apply Forall_forall. intros row (w1 & -> & _)%list_elem_of_fmap.
  rewrite Hkeys.
  apply (Hother (fun entry => Some (category_cell set_iter (snd entry) w1))
           (csv_fixed w1)).
  reflexivity.
Qed.

Lemma write_csv_header_witness :
  map (csv_row elements csv_config_example) [csv_word_example] =
    map (csv_row elements csv_config_example) [csv_word_example] /\
  length (map (csv_row elements csv_config_example) [csv_word_example]) =
    length [csv_word_example] /\
  Forall (fun row => dict_keys row = fixed_columns ++ [u "pos"])
    (map (csv_row elements csv_config_example) [csv_word_example]) /\
  exists more, fixed_columns ++ [u "pos"] = fixed_columns ++ more.
Proof.
  apply (write_csv_header elements [csv_word_example] csv_config_example
           (fixed_columns ++ [u "pos"])
           (map (csv_row elements csv_config_example) [csv_word_example])).
  vm_compute. reflexivity.
Defined.

(** X14.  What a row holds under a key: the cell of the category when the
    key is a category of the config, even when it is also the name of a
    fixed column (the category then takes the column over); otherwise the
    fixed column of that name; and nothing for any other key. *)
Theorem csv_row_lookup (set_iter : gset str -> list str) (config : Config)
    (w : Word) (k : str) :
  NoDup (dict_keys config) ->
  dict_get k (csv_row set_iter config w) =
    match dict_get k config with
    | Some terms => Some (Some (category_cell set_iter terms w))
    | None => dict_get k (csv_fixed w)
    end.
Proof.
  intros Hnd. unfold csv_row. fold (csv_fixed w).
  destruct (dict_get k config) as [terms|] eqn:Hk.
  - by apply (dict_get_foldl_set
                (fun terms => Some (category_cell set_iter terms w))).
  - by apply (dict_get_foldl_set_None
                (fun terms => Some (category_cell set_iter terms w))).
Qed.

Lemma csv_row_lookup_witness :
  dict_get (u "form") (csv_row elements form_config_example csv_word_example)
    = match dict_get (u "form") form_config_example with
      | Some terms =>
          Some (Some (category_cell elements terms csv_word_example))
      | None => dict_get (u "form") (csv_fixed csv_word_example)
      end.
Proof.
  apply (csv_row_lookup elements form_config_example csv_word_example
           (u "form")).
  constructor; [|constructor; [|constructor]].
  - intros Hin%list_elem_of_singleton. vm_compute in Hin. discriminate.
  - intros Hin. by apply elem_of_nil in Hin.
Defined.

(** The category named [form] replaces the form of the word by its cell. *)
Lemma csv_row_form_taken_over :
  dict_get (u "form") (csv_row elements form_config_example csv_word_example)
    = Some (Some (u "Suffix")) /\
  form csv_word_example = u "nu".
Proof. split; vm_compute; reflexivity. Qed.

(** ** The outcome of a run *)

(** X15.  Given the lines of the config file, if there is one, and the
    decoded lines of the corpus files, a run ends in one of four ways.  When
    the tab assertion fails in some file, the run fails with it and writes
    nothing.  Otherwise, without a usable config it writes the config; with
    a config and at least one word it writes the table, one row per word;
    with a config and no word it fails on the unbound name.  Parsing the
    lines and building the output raise nothing else.  (Input and output
    are not part of the statement: a corpus file that cannot be opened or
    has no byte-order mark, an output file or a console message that cannot
    be written or encoded.) *)
Theorem main_outcome (set_iter : gset str -> list str) (lower : str -> str)
    (configfile : option (list str)) (files : list reader) :
  match parse_files (read_config configfile) files with
  | Raise e =>
      e = AssertionError /\
      main set_iter lower configfile files = Raise AssertionError
  | Ok words =>
      match read_config configfile with
      | None =>
          main set_iter lower configfile files =
            Ok (ConfigWritten (write_config set_iter lower words))
      | Some c =>
          match words with
          | [] =>
              main set_iter lower configfile files = Raise UnboundLocalError
          | _ :: _ =>
              exists fieldnames,
                main set_iter lower configfile files =
                  Ok (CsvWritten fieldnames (map (csv_row set_iter c) words))
          end
      end
  end.
Proof.
  unfold main.
  destruct (parse_files_total (read_config configfile) files)
    as [->|[words ->]]; [done|]. simpl.
  destruct (read_config configfile) as [c|]; [|done].
  destruct words as [|w words]; [done|].
  destruct (write_csv_rows set_iter (w :: words) c) as (fieldnames & -> & _);
    [done|]. simpl. eauto.
Qed.

(** ** The generated config, read back as it is *)

Lemma contains_single (c : N) (s : str) : contains [c] s = true -> c ∈ s.
Proof.
  induction s as [|x s IH]; simpl; [done|].
  destruct (N.eqb_spec c x) as [->|Hne]; simpl.
  - intros _. apply list_elem_of_here.
  - intros H. apply list_elem_of_further, IH. by destruct s.
Qed.

Lemma dict_get_In {V} (k : str) (v : V) (d : dict V) :
  dict_get k d = Some v -> In (k, v) d.
Proof.
  induction d as [|[k' v'] d IH]; simpl; [done|].
  destruct (decide (k = k')) as [->|Hne]; [intros [= ->]; by left|].
  intros H. right. by apply IH.
Qed.

Lemma built_in_values_have_space (c : Config) (title : str)
    (terms : gset str) (t : str) :
  read_config (Some (readlines default_lines)) = Some c ->
  dict_get title c = Some terms -> t ∈ terms -> SPACE ∈ t.
Proof.
  intros Hread Hterms Ht.
  assert (match read_config (Some (readlines default_lines)) with
          | Some c =>
              forallb (fun entry =>
                         forallb (contains [SPACE]) (elements (snd entry))) c
          | None => false
          end = true) as Hall by (vm_compute; reflexivity).
  rewrite Hread in Hall. rewrite forallb_forall in Hall.
  apply dict_get_In, Hall in Hterms. simpl in Hterms.
  rewrite forallb_forall in Hterms. apply contains_single, Hterms.
  by apply list_elem_of_In, elem_of_elements.
Qed.

(** X16.  The built-in category lines that [write_config] writes give, when
    they are read back unedited, values that all start with a space, while
    no tag of a parsed word contains one.  So under that config no tag of
    any corpus falls in any category: every category cell of every row is
    empty. *)
Theorem built_in_config_never_matches (set_iter : gset str -> list str)
    (c : Config) (files : list reader) (ws : list Word) (w : Word)
    (title : str) (terms : gset str) :
  read_config (Some (readlines default_lines)) = Some c ->
  parse_files (Some c) files = Ok ws ->
  w ∈ ws ->
  dict_get title c = Some terms ->
  category_cell set_iter terms w = [].
Proof.
  intros Hread Hparse Hw Hterms.
  apply (category_cell_empty set_iter c).
  - apply parse_files_resolved in Hparse.
    rewrite Forall_forall in Hparse. by apply Hparse.
  - intros t tags Ht Htags Hin.
    apply (built_in_values_have_space c title terms t Hread Hterms) in Ht.
    destruct (parse_files_tags (Some c) files ws w tags Hparse Hw Htags)
      as [_ Hspace].
    by destruct (Hspace t Hin).
Qed.

Lemma built_in_config_never_matches_witness :
  category_cell elements
    {[ u " noun"; u " verb"; u " particle"; u " adjective" ++ [NL] ]}
    verb_word_example = [].
Proof.
  apply (built_in_config_never_matches elements built_in_config_example
           [verb_file_example] [verb_word_example] verb_word_example
           (u "pos")).
  - vm_compute. exact eq_refl.
  - vm_compute. exact eq_refl.
  - apply list_elem_of_here.
  - vm_compute. reflexivity.
Defined.

(** ** A tag with a colon *)

Lemma readlines_nonempty (a : str) : a <> [] -> readlines a <> [].
Proof.
  destruct a as [|x a]; [done|]. intros _. simpl.
  destruct (x =? NL); [done|]. by destruct (readlines a).
Qed.

Lemma readlines_app_nl (a b : str) :
  last a = Some NL -> readlines (a ++ b) = readlines a ++ readlines b.
Proof.
  induction a as [|x a IH]; [done|]. rewrite last_cons.
  destruct (decide (a = [])) as [->|Ha].
  - simpl. by intros [= ->].
  - intros Hlast. destruct (last a) as [z|] eqn:Hz.
    2:{ by apply last_None in Hz. }
    specialize (IH Hlast). pose proof (readlines_nonempty a Ha) as Hne.
    change ((x :: a) ++ b) with (x :: a ++ b).
    cbn [readlines]. rewrite IH. destruct (x =? NL); [done|].
    by destruct (readlines a).
Qed.

Lemma readlines_no_nl (x : str) : x <> [] -> NL ∉ x -> readlines x = [x].
Proof.
  induction x as [|c x IH]; [done|]. intros _ Hnl.
  apply not_elem_of_cons in Hnl as [Hc Hnl]. simpl.
  destruct (N.eqb_spec c NL); [done|].
  destruct x as [|d x]; [done|]. by rewrite IH.
Qed.

Lemma elem_of_join (sep : str) (l : list str) (d : N) :
  d ∈ join sep l -> d ∈ sep \/ exists x, x ∈ l /\ d ∈ x.
Proof.
  induction l as [|x l IH]; [by intros ?%elem_of_nil|].
  destruct l as [|y l].
  - simpl. intros Hd. right. exists x. split; [apply list_elem_of_here|done].
  - change (join sep (x :: y :: l)) with (x ++ sep ++ join sep (y :: l)).
    rewrite !elem_of_app. intros [Hd|[Hd|Hd]].
    + right. exists x. split; [apply list_elem_of_here|done].
    + by left.
    + destruct (IH Hd) as [?|(z & Hz & Hdz)]; [by left|].
      right. exists z. split; [by apply list_elem_of_further|done].
Qed.

Lemma elem_of_join_intro (sep : str) (l : list str) (x : str) (d : N) :
  x ∈ l -> d ∈ x -> d ∈ join sep l.
Proof.
  induction l as [|y l IH]; [by intros ?%elem_of_nil|].
  intros Hx Hd. destruct l as [|z l].
  - apply list_elem_of_singleton in Hx as ->. done.
  - change (join sep (y :: z :: l)) with (y ++ sep ++ join sep (z :: l)).
    rewrite !elem_of_app. apply elem_of_cons in Hx as [->|Hx]; [by left|].
    right. right. by apply IH.
Qed.

Lemma other_line_unreadable (other : list str) (t : str) :
  t ∈ other -> COLON ∈ t ->
  (forall t', t' ∈ other -> NL ∉ t') ->
  read_config
    (Some (readlines (default_lines ++ u "other: " ++ join (u ", ") other))) =
    None.
Proof.
  intros Ht Hcolon Hnl. unfold read_config. apply read_config_lines_None.
  rewrite readlines_app_nl by (vm_compute; reflexivity).
  apply Exists_app. right. rewrite readlines_no_nl.
  - apply Exists_cons_hd.
    change (u "other: " ++ join (u ", ") other)
      with (u "other" ++ COLON :: SPACE :: join (u ", ") other).
    rewrite count_occ_app. cbn [count_occ].
    destruct (N.eq_dec COLON COLON) as [_|]; [|done].
    destruct (N.eq_dec SPACE COLON) as [Heq|_]; [by vm_compute in Heq|].
    assert (count_occ N.eq_dec (join (u ", ") other) COLON > 0)%nat.
    { apply count_occ_In, list_elem_of_In. by eapply elem_of_join_intro. }
    lia.
  - done.
  - intros [Hin|Hin]%elem_of_app.
    + vm_compute in Hin. by repeat (apply elem_of_cons in Hin as [?|Hin];
        [done|]); apply elem_of_nil in Hin.
    + apply elem_of_join in Hin as [Hin|(x & Hx & Hin)].
      * vm_compute in Hin. by repeat (apply elem_of_cons in Hin as [?|Hin];
          [done|]); apply elem_of_nil in Hin.
      * by apply (Hnl x).
Qed.

(** X17.  When a tag that no built-in vocabulary contains holds a colon,
    the config that the first run writes cannot be read: its ["other:"] line
    has more than one colon.  A second run on the same corpus therefore
    finds no usable config and, instead of the table, writes a config
    again: the one of its own iteration order over the tags, whatever that
    order is (it may differ from the first run's in the order of tags that
    only differ in case). *)
Theorem colon_tag_repeats_config_generation
    (set_iter : gset str -> list str) (lower : str -> str)
    (files : list reader) (words : list Word) (t : str) :
  parse_files None files = Ok words ->
  t ∈ other_parts set_iter lower words ->
  COLON ∈ t ->
  (forall t', t' ∈ other_parts set_iter lower words -> NL ∉ t') ->
  main set_iter lower None files =
    Ok (ConfigWritten (write_config set_iter lower words)) /\
  read_config (Some (readlines (write_config set_iter lower words))) = None /\
  forall set_iter' : gset str -> list str,
    main set_iter' lower
      (Some (readlines (write_config set_iter lower words))) files =
    Ok (ConfigWritten (write_config set_iter' lower words)).
Proof.
  intros Hparse Ht Hcolon Hnl.
  assert (read_config
            (Some (readlines (write_config set_iter lower words))) = None)
    as Hread.
  { rewrite write_config_text.
    destruct (other_parts set_iter lower words) as [|t0 other] eqn:Hother;
      [by apply elem_of_nil in Ht|].
    by apply (other_line_unreadable (t0 :: other) t). }
  split; [|split; [done|]].
  - unfold main. cbn [read_config]. by rewrite Hparse.
  - intros set_iter'. unfold main. by rewrite Hread, Hparse.
Qed.

Lemma colon_tag_repeats_config_generation_witness :
  main elements ascii_lower None [colon_file_example] =
    Ok (ConfigWritten (write_config elements ascii_lower
                         [colon_word_example])) /\
  read_config
    (Some (readlines (write_config elements ascii_lower
                        [colon_word_example]))) = None /\
  forall set_iter' : gset str -> list str,
    main set_iter' ascii_lower
      (Some (readlines (write_config elements ascii_lower
                          [colon_word_example]))) [colon_file_example] =
    Ok (ConfigWritten (write_config set_iter' ascii_lower
                         [colon_word_example])).
Proof.
  apply (colon_tag_repeats_config_generation elements ascii_lower
           [colon_file_example] [colon_word_example] (u "1:pl")).
  - vm_compute. reflexivity.
  - vm_compute. apply list_elem_of_here.
  - vm_compute. do 1 apply list_elem_of_further. apply list_elem_of_here.
  - intros t' Ht'. vm_compute in Ht'.
    apply elem_of_cons in Ht' as [->|Ht']; [|by apply elem_of_nil in Ht'].
    vm_compute. intros Hin.
    by repeat (apply elem_of_cons in Hin as [?|Hin]; [done|]);
      apply elem_of_nil in Hin.
Defined.

(** ** The tags column of a parsed word *)

(** X18.  For a parsed word the truth test on [word.fts] in [write_csv] and
    in [write_config] only tells absent tags from present ones, since
    present tags are never the empty list: the [fts] cell is absent exactly
    when the tags are, and otherwise it is the tags joined by [", "] between
    brackets; and every tag of every parsed word is among the tags that
    [write_config] collects. *)
Theorem parsed_fts_cell (config : ConfigType) (files : list reader)
    (ws : list Word) (w : Word) :
  parse_files config files = Ok ws ->
  w ∈ ws ->
  csv_fts w =
    match fts w with
    | Some tags => Some (u "[" ++ join (u ", ") tags ++ u "]")
    | None => None
    end /\
  forall tags t, fts w = Some tags -> t ∈ tags -> t ∈ observed_parts ws.
Proof.
  intros Hparse Hw. split.
  - unfold csv_fts. destruct (fts w) as [[|t tags]|] eqn:Hfts; [|done|done].
    by destruct (parse_files_tags config files ws w [] Hparse Hw Hfts).
  - intros tags t Hfts Ht. apply observed_parts_elem. eauto.
Qed.

Lemma parsed_fts_cell_witness :
  csv_fts suffix_word_example =
    match fts suffix_word_example with
    | Some tags => Some (u "[" ++ join (u ", ") tags ++ u "]")
    | None => None
    end /\
  forall tags t,
    fts suffix_word_example = Some tags -> t ∈ tags ->
    t ∈ observed_parts [suffix_word_example].
Proof.
  apply (parsed_fts_cell None [resolved_file_example] [suffix_word_example]
           suffix_word_example).
  - vm_compute. reflexivity.
  - apply list_elem_of_here.
Defined.
